(** * IMQS/cli: command registry, argument parser and help renderer

    A shallow embedding of [cli.go].  Go strings are byte strings and are
    modelled by [string]; Go [int] lengths and indices are modelled by [Z]
    (no length in this program comes near the 64-bit bound); the option
    map of [Run] is a [gmap string string]; the code that prints or
    calls a handler is written in a state monad over the application and
    the trace of events, in which a run-time panic is the result [None]. *)

From Stdlib Require Import ZArith Ascii.
From stdpp Require Import base option list gmap strings pretty.

Local Open Scope Z_scope.

(** ** Go string primitives used by the package *)

(** [len(s)] *)
Definition len (s : string) : Z := Z.of_nat (String.length s).

(** [len(l)] for a slice *)
Definition llen {A} (l : list A) : Z := Z.of_nat (length l).

(** Position of the first occurrence of [substr] in [s], counted in bytes. *)
Fixpoint index_from (s substr : string) : option nat :=
  if String.prefix substr s then Some 0%nat
  else match s with
       | EmptyString => None
       | String _ s' => S <$> index_from s' substr
       end.

(** [strings.Index(s, substr)]: first occurrence, or -1. *)
Definition strings_Index (s substr : string) : Z :=
  match index_from s substr with
  | Some n => Z.of_nat n
  | None => -1
  end.

(** The slice expression [s[lo:hi]]; [None] is the run-time panic
    "slice bounds out of range". *)
Definition slice (s : string) (lo hi : Z) : option string :=
  if bool_decide (0 ≤ lo ∧ lo ≤ hi ∧ hi ≤ len s)
  then Some (String.substring (Z.to_nat lo) (Z.to_nat (hi - lo)) s)
  else None.

(** The slice expression [s[lo:]]. *)
Definition slice_from (s : string) (lo : Z) : option string :=
  slice s lo (len s).

(** [strings.Split(s, sep)] for a separator of one byte (the package only
    splits on a space and on a newline): the pieces between separators,
    always at least one piece. *)
Fixpoint strings_Split (s : string) (sep : ascii) : list string :=
  match s with
  | EmptyString => [EmptyString]
  | String a s' =>
      if Ascii.eqb a sep then EmptyString :: strings_Split s' sep
      else match strings_Split s' sep with
           | w :: ws => String a w :: ws
           | [] => [String a EmptyString]
           end
  end.

(** [strings.Join(elems, sep)] *)
Fixpoint strings_Join (elems : list string) (sep : string) : string :=
  match elems with
  | [] => ""
  | [e] => e
  | e :: rest => e +:+ sep +:+ strings_Join rest sep
  end.

(** [strings.Repeat(s, count)]; a negative count panics. *)
Definition strings_Repeat (s : string) (count : Z) : option string :=
  if bool_decide (count < 0) then None
  else Some (Nat.iter (Z.to_nat count) (String.append s) "").

Definition newline : string := String "010"%char EmptyString.

(** ** Data model *)

(** [type Option struct]: an empty [Value] marks a boolean option. *)
Record Option := mkOption {
  Key : string;
  Value : string;
  Description : string
}.

(** [type Command struct]; [Exec] is [None] for a nil callback.  The
    callbacks are opaque to the package, so their type is a parameter. *)
Record Command (ExecFunc : Type) := mkCommand {
  Name : string;
  CmdDescription : string;
  Args : list string;
  Options : list Option;
  Exec : option ExecFunc
}.
Arguments mkCommand {ExecFunc}.
Arguments Name {ExecFunc}.
Arguments CmdDescription {ExecFunc}.
Arguments Args {ExecFunc}.
Arguments Options {ExecFunc}.
Arguments Exec {ExecFunc}.

(** [type App struct] *)
Record App (ExecFunc : Type) := mkApp {
  AppDescription : string;
  DefaultExec : option ExecFunc;
  Commands : list (Command ExecFunc);
  AppOptions : list Option
}.
Arguments mkApp {ExecFunc}.
Arguments AppDescription {ExecFunc}.
Arguments DefaultExec {ExecFunc}.
Arguments Commands {ExecFunc}.
Arguments AppOptions {ExecFunc}.

(** What [Run] has parsed from the argument vector. *)
Record Parsed := mkParsed {
  options : gmap string string;
  cmdName : string;
  cmdArgs : list string
}.

(** The diagnostics [Run] prints, one constructor per [fmt.Printf]. *)
Inductive Diag :=
| ArityMismatch (given : Z) (cmd : string) (needs : string)
| UnrecognizedOption (key : string)
| OptionTakesNoValue (key : string)
| OptionRequiresValue (key value : string)
| NoExec (cmd : string)
| UnrecognizedCommand (cmd : string).

(** Observable events of a run, in program order. *)
Inductive Event (ExecFunc : Type) :=
| Stdout (s : string)
| Fail (d : Diag)
| Call (f : ExecFunc) (cmd : string) (args : list string)
       (opts : gmap string string).
Arguments Stdout {ExecFunc}.
Arguments Fail {ExecFunc}.
Arguments Call {ExecFunc}.

(** The state a call works on: the application it was called on and what
    has been printed and invoked so far. *)
Record State (ExecFunc : Type) := mkState {
  registry : App ExecFunc;
  trace : list (Event ExecFunc)
}.
Arguments mkState {ExecFunc}.
Arguments registry {ExecFunc}.
Arguments trace {ExecFunc}.

(** ** Registry *)

Definition findOption (options : list Option) (name : string) : option Option :=
  List.find (fun o => bool_decide (Key o = name)) options.

Definition isVarArgs (args : list string) : bool :=
  match last args with
  | Some a => bool_decide (strings_Index a "..." = 0)
  | None => false
  end.

Section Registry.
Context {ExecFunc : Type}.

(** [func (app *App) find(cmdName string) *Command] *)
Definition find (app : App ExecFunc) (cmdName : string)
  : option (Command ExecFunc) :=
  List.find (fun c => bool_decide (Name c = cmdName)) (Commands app).

(** [func (c *Command) AddBoolOption(name, description string)] *)
Definition Command_AddBoolOption (c : Command ExecFunc)
    (name description : string) : Command ExecFunc :=
  mkCommand (Name c) (CmdDescription c) (Args c)
            (Options c ++ [mkOption name "" description]) (Exec c).

(** [func (c *Command) AddValueOption(name, value, description string)] *)
Definition Command_AddValueOption (c : Command ExecFunc)
    (name value description : string) : Command ExecFunc :=
  mkCommand (Name c) (CmdDescription c) (Args c)
            (Options c ++ [mkOption name value description]) (Exec c).

(** [func (app *App) AddBoolOption(name, description string)] *)
Definition App_AddBoolOption (app : App ExecFunc)
    (name description : string) : App ExecFunc :=
  mkApp (AppDescription app) (DefaultExec app) (Commands app)
        (AppOptions app ++ [mkOption name "" description]).

(** [func (app *App) AddValueOption(name, value, description string)] *)
Definition App_AddValueOption (app : App ExecFunc)
    (name value description : string) : App ExecFunc :=
  mkApp (AppDescription app) (DefaultExec app) (Commands app)
        (AppOptions app ++ [mkOption name value description]).

(** [func (app *App) AddCommand(name, description string, args ...string)
    *Command]: the new command is appended; the returned pointer is its
    position in [Commands]. *)
Definition AddCommand (app : App ExecFunc) (name description : string)
    (args : list string) : App ExecFunc * nat :=
  (mkApp (AppDescription app) (DefaultExec app)
         (Commands app ++ [mkCommand name description args [] None])
         (AppOptions app),
   length (Commands app)).

(** A method call through the pointer returned by [AddCommand]: the
    command stored in the application is the one that changes. *)
Definition through (app : App ExecFunc) (p : nat)
    (f : Command ExecFunc → Command ExecFunc) : App ExecFunc :=
  mkApp (AppDescription app) (DefaultExec app)
        (alter f p (Commands app)) (AppOptions app).

(** [func (c *Command) ShortDescription() string]: element 0 of the
    split; [None] would be an index panic. *)
Definition ShortDescription (c : Command ExecFunc) : option string :=
  strings_Split (CmdDescription c) "010" !! 0%nat.

(** [func (c *Command) ExtraDescription() string]: [None] would be the
    panic of the slice expression [[1:]] on an empty slice. *)
Definition ExtraDescription (c : Command ExecFunc) : option string :=
  match strings_Split (CmdDescription c) "010" with
  | [] => None
  | _ :: rest => Some (strings_Join rest newline)
  end.
End Registry.

(** ** Help text *)

Definition width : Z := 55.

(** The loop of [formatTextIntoLines]: [n] is [len(words)], [i] the loop
    index, [line] and [lines] the two accumulators. *)
Fixpoint wrapLoop (n i : Z) (words : list string) (line : string)
    (lines : list string) : string * list string :=
  match words with
  | [] => (line, lines)
  | w :: rest =>
      let line := line +:+ w in
      if bool_decide (len line > width)
      then wrapLoop n (i + 1) rest "" (lines ++ [line])
      else if bool_decide (i ≠ n - 1)
           then wrapLoop n (i + 1) rest (line +:+ " ") lines
           else wrapLoop n (i + 1) rest line lines
  end.

(** [func formatTextIntoLines(text string, firstLineIndent,
    otherLinesIndent int) []string] *)
Definition formatTextIntoLines (text : string)
    (firstLineIndent otherLinesIndent : Z) : list string :=
  let words := strings_Split text " " in
  let '(line, lines) := wrapLoop (llen words) 0 words "" [] in
  if bool_decide (len line ≠ 0) then lines ++ [line] else lines.

(** [func formatCmdArgs(args []string) string]; [None] would be a panic of
    [args[len(args)-1][3:]]. *)
Definition formatCmdArgs (args : list string) : option string :=
  if isVarArgs args then
    a ← last args;
    varg ← slice_from a 3;
    Some (strings_Join (take (length args - 1) args) " " +:+ " " +:+
          varg +:+ "1 " +:+ varg +:+ "2 " +:+ varg +:+ "3...")
  else Some (strings_Join args " ").

(** The text of each diagnostic, as [fmt.Printf] formats it. *)
Definition render (d : Diag) : string :=
  match d with
  | ArityMismatch given cmd needs =>
      pretty given +:+ " arguments given, but " +:+ cmd +:+ " needs '" +:+
      needs +:+ "'" +:+ newline
  | UnrecognizedOption key => "Unrecognized option " +:+ key +:+ newline
  | OptionTakesNoValue key =>
      "Option " +:+ key +:+ " does not take a value. Simply use -" +:+
      key +:+ newline
  | OptionRequiresValue key value =>
      "Option " +:+ key +:+ " needs a value. Use -" +:+ key +:+ "=" +:+
      value +:+ newline
  | NoExec cmd =>
      "No exec function specified for command '" +:+ cmd +:+ "'" +:+ newline
  | UnrecognizedCommand cmd =>
      "Unrecognized command '" +:+ cmd +:+ "'" +:+ newline
  end.

(** ** The monad of the effectful functions

    A computation takes the state and gives back the new state together
    with its result, or with [None] when it panicked. *)
Definition M (ExecFunc A : Type) : Type :=
  State ExecFunc → option A * State ExecFunc.

Section Monad.
Context {ExecFunc : Type}.

Definition ret {A} (a : A) : M ExecFunc A := λ σ, (Some a, σ).

Definition bind {A B} (m : M ExecFunc A) (k : A → M ExecFunc B)
  : M ExecFunc B :=
  λ σ, match m σ with
       | (Some a, σ') => k a σ'
       | (None, σ') => (None, σ')
       end.

(** A value whose computation may have panicked. *)
Definition orPanic {A} (o : option A) : M ExecFunc A := λ σ, (o, σ).

Definition getApp : M ExecFunc (App ExecFunc) := λ σ, (Some (registry σ), σ).

(** The state after one more event. *)
Definition recorded (e : Event ExecFunc) (σ : State ExecFunc)
  : State ExecFunc :=
  mkState (registry σ) (trace σ ++ [e]).

Definition emit (e : Event ExecFunc) : M ExecFunc unit :=
  λ σ, (Some tt, recorded e σ).

(** [fmt.Printf] of an already formatted text. *)
Definition Printf (s : string) : M ExecFunc unit := emit (Stdout s).

(** [for _, x := range l { body(x) }] *)
Fixpoint forRange {A} (l : list A) (body : A → M ExecFunc unit)
  : M ExecFunc unit :=
  match l with
  | [] => ret tt
  | x :: rest => bind (body x) (λ _, forRange rest body)
  end.

(** [for i, x := range l { body(i, x) }], from index [i]. *)
Fixpoint forRangeFrom {A} (i : Z) (l : list A) (body : Z → A → M ExecFunc unit)
  : M ExecFunc unit :=
  match l with
  | [] => ret tt
  | x :: rest => bind (body i x) (λ _, forRangeFrom (i + 1) rest body)
  end.
End Monad.

Notation "x ⇐ m ; k" := (bind m (λ x, k))
  (at level 20, m at level 100, k at level 200, only parsing).
Notation "m ⨾ k" := (bind m (λ _, k))
  (at level 100, k at level 200, right associativity, only parsing).

(** ** Help renderer and dispatcher *)

Section Dispatch.
Context {ExecFunc : Type}.

(** Package fmt is not part of this repository.  [ShowHelp] builds two
    format strings at run time; the text fmt produces for them is a
    parameter: [fmtOption longest s] is
    [Sprintf("  -%-<longest>v", s)] and [fmtCommand longest name short]
    is [Sprintf("  %-<longest>v  %v\n", name, short)]. *)
Variable fmtOption : Z → string → string.
Variable fmtCommand : Z → string → string → string.

(** The order in which [range] visits a map is not specified by Go: it
    is some enumeration of the entries of the map. *)
Variable rangeOrder : gmap string string → list (string * string).

(** [func writeBody(text string, firstLineIndent, otherLinesIndent int)] *)
Definition writeBody (text : string) (firstLineIndent otherLinesIndent : Z)
  : M ExecFunc unit :=
  let lines := formatTextIntoLines text firstLineIndent otherLinesIndent in
  forRangeFrom 0 lines (λ i line,
    indent ⇐ orPanic (strings_Repeat " "
                (if bool_decide (i = 0) then firstLineIndent
                 else otherLinesIndent)) ;
    Printf (indent +:+ line +:+ newline)).

(** The closure [findLongestOption] of [ShowHelp], with its loop. *)
Fixpoint findLongestOptionLoop (max : Z) (options : list Option) : Z :=
  match options with
  | [] => max
  | opt :: rest =>
      let length :=
        if bool_decide (Value opt ≠ "")
        then len (Key opt) + 1 + len (Value opt)
        else len (Key opt) in
      findLongestOptionLoop
        (if bool_decide (length > max) then length else max) rest
  end.

Definition findLongestOption (options : list Option) : Z :=
  findLongestOptionLoop 0 options.

(** The closure [formatOption]; [longest] is the width that
    [showOptions] has stored in [optionFormatStr]. *)
Definition formatOption (longest : Z) (opt : Option) : string :=
  if bool_decide (Value opt ≠ "")
  then fmtOption longest (Key opt +:+ "=" +:+ Value opt)
  else fmtOption longest (Key opt).

(** The closure [showOptions]. *)
Definition showOptions (options : list Option) : M ExecFunc unit :=
  let longest := findLongestOption options in
  Printf newline ⨾
  forRange options (λ opt,
    Printf (formatOption longest opt) ⨾
    writeBody (Description opt) 3 (6 + longest)).

(** The loop computing [longestCmd]. *)
Fixpoint longestCmdLoop (longestCmd : Z) (cs : list (Command ExecFunc)) : Z :=
  match cs with
  | [] => longestCmd
  | c :: rest =>
      longestCmdLoop
        (if bool_decide (len (Name c) > longestCmd) then len (Name c)
         else longestCmd) rest
  end.

(** [func (app *App) ShowHelp(cmdName string)] *)
Definition ShowHelp (cmdName : string) : M ExecFunc unit :=
  app ⇐ getApp ;
  match find app cmdName with
  | Some cmd =>
      args ⇐ orPanic (formatCmdArgs (Args cmd)) ;
      let cmdAndArgs := Name cmd +:+ " " +:+ args in
      Printf (newline +:+ cmdAndArgs +:+ newline +:+ newline) ⨾
      short ⇐ orPanic (ShortDescription cmd) ;
      writeBody (short +:+ ".") 2 2 ⨾
      extra ⇐ orPanic (ExtraDescription cmd) ;
      (if bool_decide (extra ≠ "") then writeBody extra 2 2 else ret tt) ⨾
      (if bool_decide (llen (Options cmd) ≠ 0) then showOptions (Options cmd)
       else ret tt)
  | None =>
      let longestCmd := longestCmdLoop 0 (Commands app) in
      (if bool_decide (AppDescription app ≠ "")
       then Printf (newline +:+ AppDescription app +:+ newline +:+ newline)
       else ret tt) ⨾
      forRange (Commands app) (λ c,
        short ⇐ orPanic (ShortDescription c) ;
        Printf (fmtCommand longestCmd (Name c) short)) ⨾
      (if bool_decide (llen (AppOptions app) ≠ 0)
       then showOptions (AppOptions app) else ret tt)
  end.

(** The body of the tokenization loop of [Run] for one argument. *)
Definition tokenStep (p : Parsed) (arg : string) : option Parsed :=
  first ← slice arg 0 1;
  if bool_decide (first = "-") then
    let equals := strings_Index arg "=" in
    if bool_decide (equals ≠ -1) then
      key ← slice arg 1 equals;
      value ← slice_from arg (equals + 1);
      Some (mkParsed (<[key := value]> (options p)) (cmdName p) (cmdArgs p))
    else
      key ← slice_from arg 1;
      Some (mkParsed (<[key := ""]> (options p)) (cmdName p) (cmdArgs p))
  else
    if bool_decide (cmdName p = "")
    then Some (mkParsed (options p) arg (cmdArgs p))
    else Some (mkParsed (options p) (cmdName p) (cmdArgs p ++ [arg])).

(** [for iarg, arg := range os.Args], from index [iarg]. *)
Fixpoint tokenizeLoop (iarg : Z) (args : list string) (p : Parsed)
  : option Parsed :=
  match args with
  | [] => Some p
  | arg :: rest =>
      if bool_decide (iarg = 0) then tokenizeLoop (iarg + 1) rest p
      else p' ← tokenStep p arg; tokenizeLoop (iarg + 1) rest p'
  end.

Definition tokenize (argv : list string) : option Parsed :=
  tokenizeLoop 0 argv (mkParsed ∅ "" []).

(** The test that sends [Run] to the help path. *)
Definition wantsHelp (p : Parsed) : bool :=
  bool_decide (cmdName p = "") || bool_decide (cmdName p = "help")
  || bool_decide (is_Some (options p !! "help")).

(** The test of the argument count; [true] is the mismatch. *)
Definition arityMismatch (cmd : Command ExecFunc) (cmdArgs : list string)
  : bool :=
  if isVarArgs (Args cmd)
  then bool_decide (llen cmdArgs < llen (Args cmd) - 1)
  else bool_decide (llen cmdArgs ≠ llen (Args cmd)).

(** [for key, value := range options]: the diagnostic of the first entry
    that fails, [None] when the loop runs to its end. *)
Fixpoint checkOptions (allOptions : list Option)
    (entries : list (string * string)) : option Diag :=
  match entries with
  | [] => None
  | (key, value) :: rest =>
      match findOption allOptions key with
      | None => Some (UnrecognizedOption key)
      | Some opt =>
          if bool_decide (Value opt = "") && bool_decide (value ≠ "")
          then Some (OptionTakesNoValue (Key opt))
          else if bool_decide (Value opt ≠ "") && bool_decide (value = "")
          then Some (OptionRequiresValue (Key opt) (Value opt))
          else checkOptions allOptions rest
      end
  end.

(** [exec := cmd.Exec; if exec == nil { exec = app.DefaultExec }] *)
Definition resolveExec (app : App ExecFunc) (cmd : Command ExecFunc)
  : option ExecFunc :=
  match Exec cmd with
  | Some f => Some f
  | None => DefaultExec app
  end.

(** [func (app *App) Run()], on the argument vector [os.Args].  The
    function has no result: every [return] hands back the empty list of
    values. *)
Definition Run (argv : list string) : M ExecFunc (list Z) :=
  p ⇐ orPanic (tokenize argv) ;
  if wantsHelp p then
    (match cmdArgs p with
     | a :: _ => ShowHelp a
     | [] => ShowHelp (cmdName p)
     end) ⨾
    ret []
  else
    app ⇐ getApp ;
    match find app (cmdName p) with
    | Some cmd =>
        let allOptions := AppOptions app ++ Options cmd in
        if arityMismatch cmd (cmdArgs p) then
          needs ⇐ orPanic (formatCmdArgs (Args cmd)) ;
          emit (Fail (ArityMismatch (llen (cmdArgs p)) (cmdName p) needs)) ⨾
          ret []
        else
          match checkOptions allOptions (rangeOrder (options p)) with
          | Some d => emit (Fail d) ⨾ ret []
          | None =>
              match resolveExec app cmd with
              | None => emit (Fail (NoExec (cmdName p))) ⨾ ret []
              | Some exec =>
                  emit (Call exec (cmdName p) (cmdArgs p) (options p)) ⨾
                  ret []
              end
          end
    | None => emit (Fail (UnrecognizedCommand (cmdName p))) ⨾ ret []
    end.
End Dispatch.

(** ** The example application of the package's tests

    [exec] stands for the callback of [example_test.go]; the application
    is built by the registration calls of the test, in their order. *)

Inductive Handler := exec.

Definition exampleApp : App Handler :=
  let app := mkApp "myapp [options] command" (Some exec) [] [] in
  let '(app, _) :=
    AddCommand app "start" "Start the application" ["port"; "root-directory"] in
  let '(app, initialize) :=
    AddCommand app "initialize"
      ("Initialize a directory" +:+ newline +:+
       "This will setup the necessary structures in 'directory'.")
      ["root-directory"] in
  let app := through app initialize
               (λ c, Command_AddBoolOption c "clean" "Clean all files") in
  let app := through app initialize
               (λ c, Command_AddValueOption c "strength" "howstrong"
                       "Strong values clean more files") in
  let '(app, _) :=
    AddCommand app "varargs" "Demonstrate variable number of arguments"
      ["param1"; "...things"] in
  app.

(** An instance of the two fmt parameters.  For the verb [%-Nv] fmt
    writes the string and then spaces up to the width [N], a width that
    it counts in runes ([utf8.RuneCountInString]); the instance gives
    that text, for the widths of up to six digits that fmt reads from a
    format string. *)

(** The table [first] of package utf8, for a byte that is not ASCII:
    the length of the sequence the byte starts and the range its second
    byte must lie in; [None] for a byte that starts no sequence. *)
Definition utf8_first (c : N) : option (nat * N * N) :=
  (if c <? 194 then None
   else if c <? 224 then Some (2%nat, 128, 191)
   else if c =? 224 then Some (3%nat, 160, 191)
   else if c <? 237 then Some (3%nat, 128, 191)
   else if c =? 237 then Some (3%nat, 128, 159)
   else if c <? 240 then Some (3%nat, 128, 191)
   else if c =? 240 then Some (4%nat, 144, 191)
   else if c <? 244 then Some (4%nat, 128, 191)
   else if c =? 244 then Some (4%nat, 128, 143)
   else None)%N.

(** The number of bytes the loop of [utf8.RuneCountInString] steps over
    at the byte [c] followed by [rest]: the length of a well-formed
    sequence, 1 for an ASCII byte and for a byte that is invalid or is
    cut short. *)
Definition runeSize (c : N) (rest : list N) : nat :=
  if (c <? 128)%N then 1%nat
  else
    match utf8_first c with
    | None => 1%nat
    | Some (size, lo, hi) =>
        if (length rest <? size - 1)%nat then 1%nat
        else
          match rest with
          | c1 :: r1 =>
              if ((c1 <? lo) || (hi <? c1))%N then 1%nat
              else if (size =? 2)%nat then 2%nat
              else
                match r1 with
                | c2 :: r2 =>
                    if ((c2 <? 128) || (191 <? c2))%N then 1%nat
                    else if (size =? 3)%nat then 3%nat
                    else
                      match r2 with
                      | c3 :: _ =>
                          if ((c3 <? 128) || (191 <? c3))%N then 1%nat
                          else 4%nat
                      | [] => 1%nat
                      end
                | [] => 1%nat
                end
          | [] => 1%nat
          end
    end.

(** The loop of [utf8.RuneCountInString]; [skip] bytes of the current
    sequence are still to be stepped over. *)
Fixpoint runeCountFrom (skip : nat) (bs : list N) : nat :=
  match bs with
  | [] => 0%nat
  | c :: rest =>
      match skip with
      | S k => runeCountFrom k rest
      | O => S (runeCountFrom (runeSize c rest - 1) rest)
      end
  end.

(** [utf8.RuneCountInString(s)] *)
Definition RuneCountInString (s : string) : Z :=
  Z.of_nat (runeCountFrom 0 (N_of_ascii <$> String.list_ascii_of_string s)).

Definition padRight (w : Z) (s : string) : string :=
  s +:+ Nat.iter (Z.to_nat (w - RuneCountInString s)) (String.append " ") "".

Definition paddedOption (longest : Z) (s : string) : string :=
  "  -" +:+ padRight longest s.

Definition paddedCommand (longest : Z) (name short : string) : string :=
  "  " +:+ padRight longest name +:+ "  " +:+ short +:+ newline.

(** [Run] and [ShowHelp] with these instances, the map visited in the
    order of [map_to_list]. *)
Definition exampleRun (argv : list string) : M Handler (list Z) :=
  Run paddedOption paddedCommand map_to_list argv.

Definition exampleShowHelp (cmdName : string) : M Handler unit :=
  ShowHelp paddedOption paddedCommand cmdName.

Definition exampleState : State Handler := mkState exampleApp [].

(** The three commands of the example application, as they stand after
    registration. *)
Definition startCmd : Command Handler :=
  mkCommand "start" "Start the application" ["port"; "root-directory"] [] None.

Definition initializeCmd : Command Handler :=
  mkCommand "initialize"
    ("Initialize a directory" +:+ newline +:+
     "This will setup the necessary structures in 'directory'.")
    ["root-directory"]
    [mkOption "clean" "" "Clean all files";
     mkOption "strength" "howstrong" "Strong values clean more files"]
    None.

Definition varargsCmd : Command Handler :=
  mkCommand "varargs" "Demonstrate variable number of arguments"
    ["param1"; "...things"] [] None.

(** A text of eleven words of five bytes. *)
Definition elevenWords : string :=
  "aaaaa bbbbb ccccc ddddd eeeee fffff ggggg hhhhh iiiii jjjjj kkkkk".

(** ** Vocabulary of the statements *)

(** The bytes of a string. *)
Abbreviation bytes := String.list_ascii_of_string.

(** The option token [t] gives the key [k] the value [v]: it is [-k=v],
    or [-k] alone with the empty value; a key holds no [=]. *)
Definition supplies (t k v : string) : Prop :=
  ¬ In "="%char (bytes k) ∧
  (t = "-" +:+ k +:+ "=" +:+ v ∨ (t = "-" +:+ k ∧ v = "")).

(** The tokens that are not option tokens, in their order. *)
Definition positional (tokens : list string) : list string :=
  List.filter (λ t, negb (String.prefix "-" t)) tokens.

(** The declared argument list ends in a variadic marker. *)
Definition variadic (args : list string) : Prop :=
  ∃ init x, args = init ++ ["..." +:+ x].

(** The argument count [given] satisfies the arity rule of a command
    that declares [args]. *)
Definition accepted (args : list string) (given : Z) : Prop :=
  (variadic args ∧ llen args - 1 ≤ given) ∨
  (¬ variadic args ∧ given = llen args).

(** [o] is the first entry of [all] with the key [key]. *)
Definition firstMatch (all : list Option) (key : string) (o : Option) : Prop :=
  ∃ pre post, all = pre ++ o :: post ∧ Key o = key ∧
              ∀ o', In o' pre → Key o' ≠ key.

(** The supplied pair [key], [value] is legal for the option set [all]:
    the entry the key matches is boolean and the value empty, or it
    takes a value and the value is not empty. *)
Definition legal (all : list Option) (key value : string) : Prop :=
  ∃ o, firstMatch all key o ∧ (Value o = "" ↔ value = "").

(** The supplied pair breaks the option set [all], with diagnostic [d]. *)
Definition violation (all : list Option) (key value : string) (d : Diag)
  : Prop :=
  ((∀ o, In o all → Key o ≠ key) ∧ d = UnrecognizedOption key) ∨
  (∃ o, firstMatch all key o ∧ Value o = "" ∧ value ≠ "" ∧
        d = OptionTakesNoValue key) ∨
  (∃ o, firstMatch all key o ∧ Value o ≠ "" ∧ value = "" ∧
        d = OptionRequiresValue key (Value o)).

(** The argument vector asks for help. *)
Definition helpAsked (p : Parsed) : Prop :=
  cmdName p = "" ∨ cmdName p = "help" ∨ is_Some (options p !! "help").

(** The name [Run] hands to [ShowHelp] on the help path. *)
Definition helpTarget (p : Parsed) : string :=
  match cmdArgs p with
  | a :: _ => a
  | [] => cmdName p
  end.

(** The words of a line under construction, each followed by a space. *)
Definition spaced (cur : list string) : string :=
  foldr (λ w acc, w +:+ " " +:+ acc) "" cur.

(** The line made of the words [g]. *)
Definition lineOf (g : list string) : string := strings_Join g " ".

(** The computation [m], run on the application [app], returns [a]
    normally, leaves the application as it was, and adds to the trace
    the printed texts [out] and nothing else. *)
Definition prints {ExecFunc A} (m : M ExecFunc A) (app : App ExecFunc)
    (a : A) (out : list string) : Prop :=
  ∀ t, m (mkState app t) = (Some a, mkState app (t ++ (Stdout <$> out))).

(** The option tokens, in their order. *)
Definition optionTokens (tokens : list string) : list string :=
  List.filter (String.prefix "-") tokens.

(** The event is the invocation of a handler. *)
Definition isCall {ExecFunc} (e : Event ExecFunc) : bool :=
  match e with
  | Call _ _ _ _ => true
  | _ => false
  end.

(** The key of an option as the help shows it: [key], or [key=value]
    for an option that takes a value. *)
Definition displayKey (opt : Option) : string :=
  if bool_decide (Value opt ≠ "") then Key opt +:+ "=" +:+ Value opt
  else Key opt.

(** [n] spaces. *)
Definition spaces (n : Z) : string :=
  Nat.iter (Z.to_nat n) (String.append " ") "".

(** The lines of a body as they are printed: the first line behind
    [first] spaces, every other line behind [other] spaces, each closed
    by a newline. *)
Definition indentedLines (first other : Z) (lines : list string)
  : list string :=
  match lines with
  | [] => []
  | l :: rest =>
      (spaces first +:+ l +:+ newline)
      :: ((λ x, spaces other +:+ x +:+ newline) <$> rest)
  end.

(** The map visited in the reverse of the order of [map_to_list]. *)
Definition reverseOrder (m : gmap string string) : list (string * string) :=
  rev (map_to_list m).

(** The texts of the option block of a help page: an empty line, then
    for every option its key as fmt pads it and the wrapped lines of
    its description, the first behind 3 spaces and the others behind
    the width of the keys and 6 spaces more. *)
Definition optionRows (fmtOption : Z → string → string)
    (options : list Option) : list string :=
  let longest := findLongestOption options in
  newline ::
  concat ((λ opt,
             fmtOption longest (displayKey opt) ::
             indentedLines 3 (6 + longest)
               (formatTextIntoLines (Description opt) 3 (6 + longest)))
          <$> options).

(** The texts of the help page of the application. *)
Definition applicationHelp {ExecFunc} (fmtOption : Z → string → string)
    (fmtCommand : Z → string → string → string) (app : App ExecFunc)
  : list string :=
  (if bool_decide (AppDescription app = "") then []
   else [newline +:+ AppDescription app +:+ newline +:+ newline]) ++
  ((λ c, fmtCommand (longestCmdLoop 0 (Commands app)) (Name c)
           (default "" (ShortDescription c))) <$> Commands app) ++
  (match AppOptions app with
   | [] => []
   | _ => optionRows fmtOption (AppOptions app)
   end).

(** The texts of the help page of a command, from its formatted
    arguments and the two parts of its description. *)
Definition commandHelp {ExecFunc} (fmtOption : Z → string → string)
    (cmd : Command ExecFunc) (needs short extra : string) : list string :=
  (newline +:+ (Name cmd +:+ " " +:+ needs) +:+ newline +:+ newline) ::
  indentedLines 2 2 (formatTextIntoLines (short +:+ ".") 2 2) ++
  (if bool_decide (extra = "") then []
   else indentedLines 2 2 (formatTextIntoLines extra 2 2)) ++
  (match Options cmd with
   | [] => []
   | _ => optionRows fmtOption (Options cmd)
   end).

(** * Properties *)

(** ** Strings *)

Lemma app_nil_str s : "" +:+ s = s.
Proof. reflexivity. Qed.

Lemma app_cons_str a s t : String a s +:+ t = String a (s +:+ t).
Proof. reflexivity. Qed.

Ltac str_simpl :=
  repeat (rewrite app_cons_str in * || rewrite app_nil_str in * ); simpl in *.

Lemma len_nonneg s : 0 ≤ len s.
Proof. unfold len. lia. Qed.

Lemma length_app_str s t :
  String.length (s +:+ t) = (String.length s + String.length t)%nat.
Proof. induction s as [|a s IH]; str_simpl; [done|]. by rewrite IH. Qed.

Lemma len_app s t : len (s +:+ t) = len s + len t.
Proof. unfold len. rewrite length_app_str. lia. Qed.

Lemma len_empty s : len s = 0 ↔ s = "".
Proof.
  unfold len. destruct s; simpl; split; intros H; try done; lia.
Qed.

Lemma app_empty_r s : s +:+ "" = s.
Proof. induction s as [|a s IH]; str_simpl; [done|]. by rewrite IH. Qed.

Lemma app_assoc_str s t u : (s +:+ t) +:+ u = s +:+ t +:+ u.
Proof. induction s as [|a s IH]; str_simpl; [done|]. by rewrite IH. Qed.

Lemma substring_all s : String.substring 0 (String.length s) s = s.
Proof. induction s as [|a s IH]; simpl; [done|]. by rewrite IH. Qed.

Lemma substring_app_l k x :
  String.substring 0 (String.length k) (k +:+ x) = k.
Proof.
  induction k as [|a k IH]; str_simpl; [by destruct x|]. by rewrite IH.
Qed.

Lemma substring_app_r k x m :
  String.substring (String.length k) m (k +:+ x) = String.substring 0 m x.
Proof. induction k as [|a k IH]; str_simpl; done. Qed.

Lemma bytes_app s t : bytes (s +:+ t) = (bytes s ++ bytes t)%list.
Proof. induction s as [|a s IH]; str_simpl; [done|]. by rewrite IH. Qed.

Lemma prefix_byte c s :
  String.prefix (String c "") s = true ↔ ∃ r, s = String c r.
Proof.
  destruct s as [|a s]; simpl.
  - split; [done|]. by intros [r ?].
  - destruct (ascii_dec c a) as [->|Hne].
    + split; [eauto|]. by destruct s.
    + split; [done|]. intros [r [=]]. done.
Qed.

Lemma prefix_byte_ne c a s : a ≠ c → String.prefix (String c "") (String a s) = false.
Proof.
  intros Hne. destruct (String.prefix _ _) eqn:Hp; [|done].
  apply prefix_byte in Hp as [r [=]]. done.
Qed.

Lemma prefix_byte_eq c s : String.prefix (String c "") (String c s) = true.
Proof. apply prefix_byte. eauto. Qed.

(** [index_from] for a pattern of one byte finds the first such byte. *)
Lemma index_byte_cons c a s :
  index_from (String a s) (String c "") =
  if decide (a = c) then Some 0%nat else S <$> index_from s (String c "").
Proof.
  cbn [index_from]. destruct (decide (a = c)) as [->|Hne].
  - by rewrite prefix_byte_eq.
  - by rewrite prefix_byte_ne.
Qed.

Lemma index_byte_Some c s n :
  index_from s (String c "") = Some n ↔
  ∃ k v, s = k +:+ String c v ∧ String.length k = n ∧ ¬ In c (bytes k).
Proof.
  revert n. induction s as [|a s IH]; intros n.
  - simpl. split; [done|]. intros (k & v & H & _). by destruct k.
  - rewrite index_byte_cons. destruct (decide (a = c)) as [->|Hne].
    + split.
      * intros [= <-]. exists "", s. split_and!; [done..|]. by intros [].
      * intros (k & v & H & Hl & Hn). destruct k as [|b k]; [by subst|].
        str_simpl. injection H as <- _. tauto.
    + split.
      * destruct (index_from s (String c "")) as [m|] eqn:Hi; [|done].
        intros [= <-]. destruct (proj1 (IH m) eq_refl) as (k & v & -> & <- & Hn).
        exists (String a k), v. str_simpl. intuition.
      * intros (k & v & H & Hl & Hn). destruct k as [|b k].
        { str_simpl. injection H as -> _. done. }
        str_simpl. injection H as <- ->.
        destruct n as [|m]; [done|]. injection Hl as Hl.
        rewrite (proj2 (IH m)); [done|]. exists k, v. intuition.
Qed.

Lemma index_byte_None c s :
  index_from s (String c "") = None ↔ ¬ In c (bytes s).
Proof.
  induction s as [|a s IH].
  - simpl. tauto.
  - rewrite index_byte_cons. destruct (decide (a = c)) as [->|Hne].
    + simpl. split; [done|]. tauto.
    + simpl. destruct (index_from s (String c "")); simpl.
      * split; [done|]. intros H. exfalso.
        destruct IH as [_ IH]. discriminate IH. tauto.
      * split; [|done]. intros _ [?|?]; [done|]. by apply (proj1 IH).
Qed.

Lemma substring_0_0 s : String.substring 0 0 s = "".
Proof. by destruct s. Qed.

Lemma substring_skip k x j m :
  String.substring (String.length k + j) m (k +:+ x) = String.substring j m x.
Proof. induction k as [|a k IH]; str_simpl; done. Qed.

Lemma slice_nat s lo hi (a b : nat) :
  lo = Z.of_nat a → hi = Z.of_nat b → (a ≤ b ≤ String.length s)%nat →
  slice s lo hi = Some (String.substring a (b - a) s).
Proof.
  intros -> -> H. unfold slice, len. rewrite bool_decide_true by lia.
  do 2 f_equal; lia.
Qed.

Lemma slice_empty_panics : slice "" 0 1 = None.
Proof. reflexivity. Qed.

Lemma slice_first a r : slice (String a r) 0 1 = Some (String a "").
Proof.
  rewrite (slice_nat _ _ _ 0 1) by (simpl; lia).
  simpl. by rewrite substring_0_0.
Qed.

(** ** Tokenization *)

Lemma supplies_dash t k v : supplies t k v → ∃ r, t = String "-" r.
Proof. intros [_ [->| [-> _]]]; str_simpl; eauto. Qed.

(** An option token supplies one key and one value only. *)
Lemma supplies_fun t k v k' v' :
  supplies t k v → supplies t k' v' → k = k' ∧ v = v'.
Proof.
  intros [Hk Ht] [Hk' Ht'].
  assert (∀ a b c d, ¬ In "="%char (bytes a) → ¬ In "="%char (bytes c) →
            a +:+ "=" +:+ b = c +:+ "=" +:+ d → a = c ∧ b = d) as Heq.
  { clear. induction a as [|x a IH]; intros b [|y c] d Ha Hc H; str_simpl.
    - by injection H as ->.
    - injection H as <- _. tauto.
    - injection H as -> _. tauto.
    - injection H as -> H. apply IH in H as [-> ->]; tauto. }
  assert (∀ a c d, ¬ In "="%char (bytes a) → a ≠ c +:+ "=" +:+ d) as Hne.
  { clear. intros a c d Ha ->. apply Ha. rewrite bytes_app.
    apply in_or_app. right. str_simpl. by left. }
  destruct Ht as [->|[-> ->]], Ht' as [H|[H ->]]; str_simpl;
    injection H as H.
  - by apply Heq.
  - exfalso. by eapply (Hne k' k v).
  - exfalso. by eapply (Hne k k' v').
  - done.
Qed.

(** What one turn of the loop does, by the shape of the token. *)
Lemma tokenStep_cases p t :
  (t = "" ∧ tokenStep p t = None) ∨
  (∃ k v, supplies t k v ∧
     tokenStep p t =
     Some (mkParsed (<[k := v]> (options p)) (cmdName p) (cmdArgs p))) ∨
  (t ≠ "" ∧ String.prefix "-" t = false ∧
     tokenStep p t =
     Some (if bool_decide (cmdName p = "")
           then mkParsed (options p) t (cmdArgs p)
           else mkParsed (options p) (cmdName p) (cmdArgs p ++ [t]))).
Proof.
  destruct t as [|a r]; [by left|]. right.
  unfold tokenStep. rewrite slice_first. cbn [mbind option_bind].
  destruct (decide (a = "-"%char)) as [->|Hne].
  - left. rewrite bool_decide_true by done.
    unfold strings_Index. rewrite index_byte_cons.
    rewrite decide_False by done.
    destruct (index_from r "=") as [n|] eqn:Hi; cbn [fmap option_fmap option_map].
    + apply index_byte_Some in Hi as (k & v & -> & <- & Hk).
      exists k, v. split; [by split; [|left]|].
      rewrite bool_decide_true by lia.
      rewrite (slice_nat _ _ _ 1 (S (String.length k)))
        by (simpl; rewrite ?length_app_str; lia).
      cbn [mbind option_bind]. unfold slice_from, len.
      rewrite (slice_nat _ _ _ (S (S (String.length k))) (String.length ("-" +:+ k +:+ "=" +:+ v)))
        by (str_simpl; rewrite ?length_app_str; simpl; lia).
      cbn [mbind option_bind]. str_simpl.
      rewrite Nat.sub_0_r, substring_app_l.
      replace (S (String.length k)) with (String.length k + 1)%nat at 1 by lia.
      rewrite substring_skip. simpl String.substring.
      rewrite length_app_str. simpl String.length.
      replace (_ - _)%nat with (String.length v) by lia.
      by rewrite substring_all.
    + apply index_byte_None in Hi.
      exists r, "". split; [by split; [|right]|].
      rewrite bool_decide_false by lia.
      unfold slice_from, len.
      rewrite (slice_nat _ _ _ 1 (String.length (String "-" r))) by (simpl; lia).
      cbn [mbind option_bind]. simpl.
      replace (_ - _)%nat with (String.length r) by lia.
      by rewrite substring_all.
  - right. split; [done|]. split.
    { by apply prefix_byte_ne. }
    rewrite bool_decide_false; [by case_bool_decide|]. by intros [= ->].
Qed.

Lemma tokenStep_panics p t : tokenStep p t = None ↔ t = "".
Proof.
  destruct (tokenStep_cases p t) as [[-> H]|[(k & v & Hs & H)|(Hne & _ & H)]];
    rewrite H; [done| |done].
  split; [done|]. intros ->. by destruct (supplies_dash _ _ _ Hs).
Qed.

Lemma tokenizeLoop_cons i t rest p :
  0 < i →
  tokenizeLoop i (t :: rest) p =
  tokenStep p t ≫= tokenizeLoop (i + 1) rest.
Proof. intros Hi. cbn [tokenizeLoop]. by rewrite bool_decide_false by lia. Qed.

Lemma tokenize_cons prog tokens :
  tokenize (prog :: tokens) = tokenizeLoop 1 tokens (mkParsed ∅ "" []).
Proof. reflexivity. Qed.

(** The loop panics exactly when it meets an empty token. *)
Lemma tokenizeLoop_panics i tokens p :
  0 < i → tokenizeLoop i tokens p = None ↔ In "" tokens.
Proof.
  revert i p. induction tokens as [|t rest IH]; intros i p Hi.
  - simpl. split; [done|tauto].
  - rewrite tokenizeLoop_cons by done.
    destruct (tokenStep p t) as [p'|] eqn:Hs; cbn [mbind option_bind].
    + rewrite IH by lia. simpl. split; [tauto|]. intros [->|?]; [|done].
      by rewrite (proj2 (tokenStep_panics p "")) in Hs.
    + apply tokenStep_panics in Hs as ->. simpl. tauto.
Qed.

(** A key that no token supplies keeps its entry. *)
Lemma tokenizeLoop_other i tokens p p' k :
  0 < i → tokenizeLoop i tokens p = Some p' →
  (∀ t v, In t tokens → ¬ supplies t k v) →
  options p' !! k = options p !! k.
Proof.
  revert i p. induction tokens as [|t rest IH]; intros i p Hi Hl Hk.
  - by injection Hl as <-.
  - rewrite tokenizeLoop_cons in Hl by done.
    destruct (tokenStep_cases p t) as [[-> H]|[(k' & v & Hs & H)|(Hne & _ & H)]];
      rewrite H in Hl; cbn [mbind option_bind] in Hl; [done| |].
    + rewrite (IH (i + 1) _ ltac:(lia) Hl) by eauto using in_cons.
      simpl. apply lookup_insert_ne. intros ->. eapply Hk; [by left|done].
    + rewrite (IH (i + 1) _ ltac:(lia) Hl) by eauto using in_cons.
      by case_bool_decide.
Qed.

(** The last token that supplies a key decides its value. *)
Lemma tokenizeLoop_last i pre t post p p' k v :
  0 < i → tokenizeLoop i (pre ++ t :: post) p = Some p' →
  supplies t k v →
  (∀ t' v', In t' post → ¬ supplies t' k v') →
  options p' !! k = Some v.
Proof.
  revert i p. induction pre as [|a pre IH]; intros i p Hi Hl Hs Hpost.
  - rewrite app_nil_l, tokenizeLoop_cons in Hl by done.
    destruct (tokenStep_cases p t) as [[-> H]|[(k' & v' & Hs' & H)|(Hne & Hp & H)]];
      rewrite H in Hl; cbn [mbind option_bind] in Hl; [done| |].
    + destruct (supplies_fun _ _ _ _ _ Hs Hs') as [<- <-].
      rewrite (tokenizeLoop_other (i + 1) _ _ _ k ltac:(lia) Hl) by done.
      simpl. apply lookup_insert_eq.
    + destruct (supplies_dash _ _ _ Hs) as [r ->]. by rewrite prefix_byte_eq in Hp.
  - rewrite <- app_comm_cons, tokenizeLoop_cons in Hl by done.
    destruct (tokenStep p a) as [q|]; cbn [mbind option_bind] in Hl; [|done].
    eapply IH; [|done..]. lia.
Qed.

(** The keys of the map are the keys the tokens supply. *)
Lemma tokenizeLoop_dom i tokens p p' k :
  0 < i → tokenizeLoop i tokens p = Some p' →
  is_Some (options p' !! k) ↔
  is_Some (options p !! k) ∨ ∃ t v, In t tokens ∧ supplies t k v.
Proof.
  revert i p. induction tokens as [|t rest IH]; intros i p Hi Hl.
  - injection Hl as <-. split; [tauto|]. intros [?|(t & v & [] & _)]. done.
  - rewrite tokenizeLoop_cons in Hl by done.
    destruct (tokenStep_cases p t) as [[-> H]|[(k' & v & Hs & H)|(Hne & Hp & H)]];
      rewrite H in Hl; cbn [mbind option_bind] in Hl; [done| |].
    + rewrite (IH (i + 1) _ ltac:(lia) Hl). simpl.
      destruct (decide (k' = k)) as [->|Hkk].
      * rewrite lookup_insert_eq. split; [|eauto].
        intros _. right. exists t, v. split; [by left|done].
      * rewrite lookup_insert_ne by done. split.
        -- intros [?|(t' & v' & Hin & Hs')]; [tauto|]. right. eauto using in_cons.
        -- intros [?|(t' & v' & [<-|Hin] & Hs')]; [tauto| |by eauto 6].
           by destruct (supplies_fun _ _ _ _ _ Hs Hs').
    + rewrite (IH (i + 1) _ ltac:(lia) Hl).
      assert (∀ v, ¬ supplies t k v) as Hno.
      { intros v Hs. destruct (supplies_dash _ _ _ Hs) as [r ->].
        by rewrite prefix_byte_eq in Hp. }
      assert (options (if bool_decide (cmdName p = "")
                then mkParsed (options p) t (cmdArgs p)
                else mkParsed (options p) (cmdName p) (cmdArgs p ++ [t]))
              = options p) as -> by by case_bool_decide.
      split.
      * intros [?|(t' & v' & Hin & Hs')]; [tauto|]. right. eauto using in_cons.
      * intros [?|(t' & v' & [<-|Hin] & Hs')]; [tauto| |by eauto 6].
        by destruct (Hno v').
Qed.

(** The tokens that are not options become the command name and then
    the arguments, in their order. *)
Lemma tokenizeLoop_positional i tokens p p' :
  0 < i → tokenizeLoop i tokens p = Some p' →
  if bool_decide (cmdName p = "") then
    match positional tokens with
    | [] => cmdName p' = "" ∧ cmdArgs p' = cmdArgs p
    | n :: a => cmdName p' = n ∧ cmdArgs p' = cmdArgs p ++ a
    end
  else cmdName p' = cmdName p ∧ cmdArgs p' = cmdArgs p ++ positional tokens.
Proof.
  revert i p. induction tokens as [|t rest IH]; intros i p Hi Hl.
  - injection Hl as <-. simpl. rewrite app_nil_r. by case_bool_decide.
  - rewrite tokenizeLoop_cons in Hl by done.
    destruct (tokenStep_cases p t) as [[-> H]|[(k' & v & Hs & H)|(Hne & Hp & H)]];
      rewrite H in Hl; cbn [mbind option_bind] in Hl; [done| |].
    + destruct (supplies_dash _ _ _ Hs) as [r ->].
      unfold positional. cbn [List.filter]. rewrite prefix_byte_eq.
      cbn [negb]. by apply IH in Hl; [|lia].
    + unfold positional. cbn [List.filter]. rewrite Hp. cbn [negb].
      apply IH in Hl; [|lia]. fold (positional rest).
      case_bool_decide as Hc.
      * simpl in Hl. rewrite bool_decide_false in Hl by done.
        destruct Hl as [-> ->]. by rewrite app_nil_r || done.
      * simpl in Hl. rewrite bool_decide_false in Hl by done.
        destruct Hl as [-> ->]. by rewrite <- app_assoc.
Qed.

(** ** Computations that only print *)

Section Prints.
Context {ExecFunc : Type}.
Implicit Types (app : App ExecFunc).

Lemma prints_ret {A} app (a : A) : prints (ret a) app a [].
Proof. intros t. unfold ret. by rewrite app_nil_r. Qed.

Lemma prints_bind {A B} app (m : M ExecFunc A) (k : A → M ExecFunc B)
    a b o1 o2 :
  prints m app a o1 → prints (k a) app b o2 →
  prints (bind m k) app b (o1 ++ o2).
Proof.
  intros Hm Hk t. unfold bind. rewrite Hm, Hk.
  by rewrite fmap_app, app_assoc.
Qed.

Lemma prints_Printf app s : prints (Printf s) app tt [s].
Proof. by intros t. Qed.

Lemma prints_orPanic {A} app (a : A) : prints (orPanic (Some a)) app a [].
Proof. intros t. unfold orPanic. by rewrite app_nil_r. Qed.

Lemma prints_getApp app : prints getApp app app [].
Proof. intros t. unfold getApp. simpl. by rewrite app_nil_r. Qed.

Lemma prints_if {A} app (b : bool) (m1 m2 : M ExecFunc A) a :
  (∃ o, prints m1 app a o) → (∃ o, prints m2 app a o) →
  ∃ o, prints (if b then m1 else m2) app a o.
Proof. by destruct b. Qed.

Lemma prints_forRange {A} app (l : list A) (body : A → M ExecFunc unit) :
  (∀ x, ∃ o, prints (body x) app tt o) →
  ∃ o, prints (forRange l body) app tt o.
Proof.
  intros Hb. induction l as [|x l [o IH]]; simpl.
  - eexists. apply prints_ret.
  - destruct (Hb x) as [o1 H1]. eexists. by eapply prints_bind.
Qed.

Lemma prints_forRangeFrom {A} app i (l : list A)
    (body : Z → A → M ExecFunc unit) :
  (∀ j x, ∃ o, prints (body j x) app tt o) →
  ∃ o, prints (forRangeFrom i l body) app tt o.
Proof.
  intros Hb. revert i. induction l as [|x l IH]; intros i; simpl.
  - eexists. apply prints_ret.
  - destruct (Hb i x) as [o1 H1], (IH (i + 1)) as [o2 H2].
    eexists. by eapply prints_bind.
Qed.
End Prints.

(** ** The helpers of the renderer do not panic *)

Lemma strings_Split_cons s sep : ∃ w ws, strings_Split s sep = w :: ws.
Proof.
  induction s as [|a s (w & ws & IH)]; simpl; [by eauto|].
  destruct (Ascii.eqb a sep); [by eauto|]. rewrite IH. eauto.
Qed.

Lemma strings_Repeat_Some s count :
  0 ≤ count → is_Some (strings_Repeat s count).
Proof. intros H. unfold strings_Repeat. by rewrite bool_decide_false by lia. Qed.

Lemma index_from_0 s sub : index_from s sub = Some 0%nat → String.prefix sub s = true.
Proof.
  destruct s as [|a s]; cbn [index_from]; destruct (String.prefix _ _); try done.
  by destruct (index_from s sub).
Qed.

Lemma prefix_length p s : String.prefix p s = true → (String.length p ≤ String.length s)%nat.
Proof.
  revert s. induction p as [|a p IH]; intros [|b s]; simpl; try done; try lia.
  destruct (ascii_dec a b); [|done]. intros H%IH. lia.
Qed.

Lemma isVarArgs_last args :
  isVarArgs args = true →
  ∃ a, last args = Some a ∧ String.prefix "..." a = true.
Proof.
  unfold isVarArgs, strings_Index. destruct (last args) as [a|]; [|done].
  intros H%bool_decide_eq_true. exists a. split; [done|].
  apply index_from_0. destruct (index_from a "...") as [[|n]|]; try done; lia.
Qed.

Lemma formatCmdArgs_Some args : is_Some (formatCmdArgs args).
Proof.
  unfold formatCmdArgs. destruct (isVarArgs args) eqn:Hv; [|done].
  apply isVarArgs_last in Hv as (a & -> & Hp%prefix_length).
  cbn [mbind option_bind]. unfold slice_from, slice, len.
  simpl in Hp. by rewrite bool_decide_true by lia.
Qed.

Lemma ShortDescription_Some {ExecFunc} (c : Command ExecFunc) :
  is_Some (ShortDescription c).
Proof.
  unfold ShortDescription.
  by destruct (strings_Split_cons (CmdDescription c) "010") as (w & ws & ->).
Qed.

Lemma ExtraDescription_Some {ExecFunc} (c : Command ExecFunc) :
  is_Some (ExtraDescription c).
Proof.
  unfold ExtraDescription.
  by destruct (strings_Split_cons (CmdDescription c) "010") as (w & ws & ->).
Qed.

Lemma findLongestOptionLoop_ge max options :
  max ≤ findLongestOptionLoop max options.
Proof.
  revert max. induction options as [|o l IH]; intros max; simpl; [lia|].
  etrans; [|apply IH]. case_bool_decide; lia.
Qed.

(** ** Help rendering *)

Section HelpProperties.
Context {ExecFunc : Type}.
Variable fmtOption : Z → string → string.
Variable fmtCommand : Z → string → string → string.
Implicit Types (app : App ExecFunc).

Lemma writeBody_prints app text first other :
  0 ≤ first → 0 ≤ other →
  ∃ o, prints (writeBody (ExecFunc:=ExecFunc) text first other) app tt o.
Proof.
  intros Hf Ho. unfold writeBody. apply prints_forRangeFrom. intros j line.
  destruct (strings_Repeat_Some " "
              (if bool_decide (j = 0) then first else other))
    as [ind ->]; [by case_bool_decide|].
  eexists. eapply prints_bind; [apply prints_orPanic|apply prints_Printf].
Qed.

Lemma showOptions_prints app options :
  ∃ o, prints (showOptions (ExecFunc:=ExecFunc) fmtOption options) app tt o.
Proof.
  unfold showOptions.
  destruct (prints_forRange app options (λ opt,
    Printf (formatOption fmtOption (findLongestOption options) opt) ⨾
    writeBody (Description opt) 3 (6 + findLongestOption options)))
    as [o Ho].
  { intros opt.
    destruct (writeBody_prints app (Description opt) 3
                (6 + findLongestOption options)) as [o Ho]; [lia| |].
    { pose proof (findLongestOptionLoop_ge 0 options).
      unfold findLongestOption. lia. }
    eexists. eapply prints_bind; [apply prints_Printf|apply Ho]. }
  eexists. eapply prints_bind; [apply prints_Printf|apply Ho].
Qed.

(** [ShowHelp] returns normally, leaves the application as it is and
    only prints; what it prints depends on the application and on the
    name alone. *)
Lemma ShowHelp_prints app cmdName :
  ∃ o, prints (ShowHelp fmtOption fmtCommand cmdName) app tt o.
Proof.
  unfold ShowHelp.
  assert (∀ (b : bool) options,
    ∃ o, prints (if b then showOptions fmtOption options else ret tt) app tt o)
    as Hopts.
  { intros b options. apply prints_if; [apply showOptions_prints|].
    eexists. apply prints_ret. }
  destruct (find app cmdName) as [cmd|] eqn:Hfind.
  - destruct (formatCmdArgs_Some (Args cmd)) as [args Hargs].
    destruct (ShortDescription_Some cmd) as [short Hshort].
    destruct (ExtraDescription_Some cmd) as [extra Hextra].
    destruct (writeBody_prints app (short +:+ ".") 2 2) as [o1 H1]; [lia..|].
    destruct (prints_if app (bool_decide (extra ≠ ""))
                (writeBody extra 2 2) (ret tt) tt) as [o2 H2].
    { apply writeBody_prints; lia. }
    { eexists. apply prints_ret. }
    destruct (Hopts (bool_decide (llen (Options cmd) ≠ 0)) (Options cmd))
      as [o3 H3].
    eexists. eapply prints_bind; [apply prints_getApp|]. rewrite Hfind.
    rewrite Hargs, Hshort, Hextra.
    eapply prints_bind; [apply prints_orPanic|].
    eapply prints_bind; [apply prints_Printf|].
    eapply prints_bind; [apply prints_orPanic|].
    eapply prints_bind; [apply H1|].
    eapply prints_bind; [apply prints_orPanic|].
    eapply prints_bind; [apply H2|apply H3].
  - destruct (prints_if app (bool_decide (AppDescription app ≠ ""))
                (Printf (newline +:+ AppDescription app +:+ newline +:+ newline))
                (ret tt) tt) as [o1 H1].
    { eexists. apply prints_Printf. }
    { eexists. apply prints_ret. }
    destruct (prints_forRange app (Commands app) (λ c,
      short ⇐ orPanic (ShortDescription c) ;
      Printf (fmtCommand (longestCmdLoop 0 (Commands app)) (Name c) short)))
      as [o2 H2].
    { intros c. destruct (ShortDescription_Some c) as [short ->].
      eexists. eapply prints_bind; [apply prints_orPanic|apply prints_Printf]. }
    destruct (Hopts (bool_decide (llen (AppOptions app) ≠ 0)) (AppOptions app))
      as [o3 H3].
    eexists. eapply prints_bind; [apply prints_getApp|]. rewrite Hfind.
    eapply prints_bind; [apply H1|].
    eapply prints_bind; [apply H2|apply H3].
Qed.

(** C9. Help rendering, for a named command or for the application,
    returns normally without invoking a handler (it adds printed texts
    to the trace and nothing else) and leaves the application
    (commands, argument lists, options, global options) as it was;
    repeating the same call on the same application prints the same
    texts again. *)
Theorem C9_ShowHelp_frame (σ : State ExecFunc) (cmdName : string) :
  ∃ out : list string,
    let σ' := mkState (registry σ) (trace σ ++ (Stdout <$> out)) in
    ShowHelp fmtOption fmtCommand cmdName σ = (Some tt, σ') ∧
    ShowHelp fmtOption fmtCommand cmdName σ' =
      (Some tt, mkState (registry σ) (trace σ' ++ (Stdout <$> out))).
Proof.
  destruct (ShowHelp_prints (registry σ) cmdName) as [out Hout].
  exists out. simpl. split; [|apply Hout].
  destruct σ as [app t]. apply Hout.
Qed.
End HelpProperties.

(** ** Lookup of options and the variadic marker *)

Lemma findOption_Some all key o :
  findOption all key = Some o ↔ firstMatch all key o.
Proof.
  unfold findOption, firstMatch. induction all as [|a all IH]; simpl.
  - split; [done|]. intros (pre & post & H & _). by destruct pre.
  - case_bool_decide as Hk.
    + split.
      * intros [= <-]. exists [], all. by split_and!.
      * intros (pre & post & H & Hko & Hpre). destruct pre as [|b pre].
        { by injection H as ->. }
        injection H as <- _. exfalso. eapply Hpre; [by left|done].
    + rewrite IH. split.
      * intros (pre & post & -> & Hko & Hpre). exists (a :: pre), post.
        split_and!; [done..|]. intros o' [<-|?]; auto.
      * intros (pre & post & H & Hko & Hpre). destruct pre as [|b pre].
        { injection H as -> _. done. }
        injection H as <- ->. exists pre, post. split_and!; [done..|].
        intros o' ?. apply Hpre. by right.
Qed.

Lemma findOption_None all key :
  findOption all key = None ↔ ∀ o, In o all → Key o ≠ key.
Proof.
  unfold findOption. induction all as [|a all IH]; simpl.
  - split; [tauto|done].
  - case_bool_decide as Hk.
    + split; [done|]. intros H. exfalso. by eapply H; [left|].
    + rewrite IH. split.
      * intros H o [<-|?]; auto.
      * intros H o ?. apply H. by right.
Qed.

Lemma prefix_app p s : String.prefix p s = true ↔ ∃ x, s = p +:+ x.
Proof.
  revert s. induction p as [|a p IH]; intros s.
  - simpl. split; [by eauto|]. by destruct s.
  - destruct s as [|b s]; simpl.
    + split; [done|]. by intros [x ?].
    + destruct (ascii_dec a b) as [->|Hne].
      * rewrite IH. split; intros [x H]; exists x; str_simpl; congruence.
      * split; [done|]. intros [x H]. str_simpl. congruence.
Qed.

Lemma index_from_0_iff s sub :
  index_from s sub = Some 0%nat ↔ String.prefix sub s = true.
Proof.
  split; [apply index_from_0|]. intros H.
  destruct s; cbn [index_from]; by rewrite H.
Qed.

Lemma isVarArgs_variadic args : isVarArgs args = true ↔ variadic args.
Proof.
  unfold isVarArgs, variadic, strings_Index. split.
  - destruct (last args) as [a|] eqn:Hl; [|done].
    intros H%bool_decide_eq_true.
    apply last_Some in Hl as [init ->].
    assert (index_from a "..." = Some 0%nat) as Hi.
    { destruct (index_from a "...") as [[|n]|]; try done; lia. }
    apply index_from_0_iff, prefix_app in Hi as [x ->]. eauto.
  - intros (init & x & ->). rewrite last_snoc. apply bool_decide_eq_true.
    by rewrite (proj2 (index_from_0_iff _ _) (proj2 (prefix_app _ _) (ex_intro _ x eq_refl))).
Qed.

Lemma arityMismatch_accepted {ExecFunc} (cmd : Command ExecFunc) cmdArgs :
  arityMismatch cmd cmdArgs = false ↔ accepted (Args cmd) (llen cmdArgs).
Proof.
  unfold arityMismatch, accepted.
  destruct (isVarArgs (Args cmd)) eqn:Hv.
  - apply isVarArgs_variadic in Hv. rewrite bool_decide_eq_false.
    split; [intros ?; left; split; [done|lia]|].
    intros [[_ ?]|[? _]]; [lia|done].
  - assert (¬ variadic (Args cmd)) as Hn.
    { intros H%isVarArgs_variadic. congruence. }
    rewrite bool_decide_eq_false. split; [intros ?%dec_stable; by right|].
    intros [[? _]|[_ ?]]; [done|]. by intros ?.
Qed.

(** ** The loop over the supplied options *)

Lemma legal_not_violation all key value d :
  legal all key value → ¬ violation all key value d.
Proof.
  intros (o & Ho & Hv) [[Hn _]|[(o' & Ho' & ? & ? & _)|(o' & Ho' & ? & ? & _)]].
  - destruct Ho as (pre & post & -> & Hk & _).
    eapply Hn; [|done]. apply in_or_app. right. by left.
  - apply findOption_Some in Ho, Ho'. simplify_eq. tauto.
  - apply findOption_Some in Ho, Ho'. simplify_eq. tauto.
Qed.

Lemma legal_or_violation all key value :
  legal all key value ∨ ∃ d, violation all key value d.
Proof.
  destruct (findOption all key) as [o|] eqn:Hf.
  - apply findOption_Some in Hf.
    destruct (decide (Value o = "")) as [Ho|Ho], (decide (value = "")) as [Hv|Hv].
    + left. by exists o.
    + right. eexists. right. left. by exists o.
    + right. eexists. right. right. by exists o.
    + left. exists o. tauto.
  - right. eexists. left. split; [|done]. by apply findOption_None.
Qed.

Lemma checkOptions_legal all key value rest :
  legal all key value →
  checkOptions all ((key, value) :: rest) = checkOptions all rest.
Proof.
  intros (o & Ho%findOption_Some & Hv). cbn [checkOptions]. rewrite Ho.
  destruct (decide (Value o = "")) as [Hz|Hz].
  - rewrite (bool_decide_false (value ≠ "")) by tauto.
    rewrite (bool_decide_false (Value o ≠ "")) by tauto.
    by rewrite andb_false_r.
  - rewrite (bool_decide_false (Value o = "")) by done.
    rewrite (bool_decide_false (value = "")) by tauto.
    by rewrite andb_false_r.
Qed.

Lemma checkOptions_violation all key value d rest :
  violation all key value d →
  checkOptions all ((key, value) :: rest) = Some d.
Proof.
  intros [[Hn ->]|[(o & Ho & Hz & Hv & ->)|(o & Ho & Hz & Hv & ->)]];
    cbn [checkOptions].
  - by rewrite (proj2 (findOption_None _ _) Hn).
  - pose proof Ho as (_ & _ & _ & <- & _).
    rewrite (proj2 (findOption_Some _ _ _) Ho).
    rewrite (bool_decide_true (Value o = "")) by done.
    by rewrite (bool_decide_true (value ≠ "")) by done.
  - pose proof Ho as (_ & _ & _ & <- & _).
    rewrite (proj2 (findOption_Some _ _ _) Ho).
    rewrite (bool_decide_false (Value o = "")) by done.
    rewrite (bool_decide_true (Value o ≠ "")) by done.
    by rewrite (bool_decide_true (value = "")) by done.
Qed.

(** The loop stops at the first entry that is not legal. *)
Lemma checkOptions_first all pre key value post d :
  (∀ k v, In (k, v) pre → legal all k v) →
  violation all key value d →
  checkOptions all (pre ++ (key, value) :: post) = Some d.
Proof.
  intros Hpre Hv. induction pre as [|[k v] pre IH].
  - by apply checkOptions_violation.
  - rewrite <- app_comm_cons, checkOptions_legal by (apply Hpre; by left).
    apply IH. intros ???. apply Hpre. by right.
Qed.

Lemma checkOptions_None all entries :
  checkOptions all entries = None ↔ ∀ k v, In (k, v) entries → legal all k v.
Proof.
  induction entries as [|[k v] rest IH].
  - simpl. split; [tauto|done].
  - destruct (legal_or_violation all k v) as [Hl|[d Hd]].
    + rewrite checkOptions_legal, IH by done. split.
      * intros H k' v' [[= <- <-]|?]; auto.
      * intros H k' v' ?. apply H. by right.
    + rewrite (checkOptions_violation _ _ _ _ _ Hd). split; [done|].
      intros H. exfalso. eapply legal_not_violation; [|done]. apply H. by left.
Qed.

(** ** The dispatcher *)

Lemma tokenize_tl argv :
  tokenize argv = tokenizeLoop 1 (tl argv) (mkParsed ∅ "" []).
Proof. by destruct argv. Qed.

Lemma tokenize_panics argv : tokenize argv = None ↔ In "" (tl argv).
Proof. rewrite tokenize_tl. by apply tokenizeLoop_panics. Qed.

Lemma wantsHelp_asked p : wantsHelp p = true ↔ helpAsked p.
Proof.
  unfold wantsHelp, helpAsked.
  rewrite !orb_true_iff, !bool_decide_eq_true. tauto.
Qed.

Lemma wantsHelp_not_asked p : wantsHelp p = false ↔ ¬ helpAsked p.
Proof.
  rewrite <- wantsHelp_asked. by destruct (wantsHelp p).
Qed.

(** What has been parsed, read off the argument vector. *)
Lemma tokenize_parsed argv p :
  tokenize argv = Some p → cmdName p ≠ "" →
  cmdName p :: cmdArgs p = positional (tl argv) ∧
  ∀ k, is_Some (options p !! k) ↔ ∃ t v, In t (tl argv) ∧ supplies t k v.
Proof.
  rewrite tokenize_tl. intros Hp Hn. split.
  - apply tokenizeLoop_positional in Hp; [|lia]. simpl in Hp.
    destruct (positional (tl argv)); destruct Hp as [? ?]; by simplify_eq.
  - intros k. rewrite (tokenizeLoop_dom 1 _ _ _ k ltac:(lia) Hp). simpl.
    rewrite lookup_empty. split; [|by eauto]. by intros [[? ?]|?].
Qed.

(** A list with an entry that is not legal has a first such entry. *)
Lemma first_violation all (entries : list (string * string)) k v :
  In (k, v) entries → ¬ legal all k v →
  ∃ pre k' v' post d,
    entries = pre ++ (k', v') :: post ∧
    (∀ k0 v0, In (k0, v0) pre → legal all k0 v0) ∧
    violation all k' v' d.
Proof.
  induction entries as [|[k0 v0] rest IH]; [done|]. intros Hin Hnl.
  destruct (legal_or_violation all k0 v0) as [Hl|[d Hd]].
  - destruct Hin as [[= -> ->]|Hin]; [done|].
    destruct (IH Hin Hnl) as (pre & k' & v' & post & d & -> & Hpre & Hd).
    exists ((k0, v0) :: pre), k', v', post, d. split_and!; [done| |done].
    intros k1 v1 [[= <- <-]|?]; auto.
  - exists [], k0, v0, rest, d. by split_and!.
Qed.

Section RunProperties.
Context {ExecFunc : Type}.
Variable fmtOption : Z → string → string.
Variable fmtCommand : Z → string → string → string.
Variable rangeOrder : gmap string string → list (string * string).

(** [range] visits every entry of the map once, in some order. *)
Hypothesis rangeOrder_perm : ∀ m, rangeOrder m ≡ₚ map_to_list m.

Implicit Types (σ : State ExecFunc) (p : Parsed).

Local Abbreviation run := (Run (ExecFunc:=ExecFunc) fmtOption fmtCommand rangeOrder).
Local Abbreviation showHelp := (ShowHelp (ExecFunc:=ExecFunc) fmtOption fmtCommand).

Lemma rangeOrder_lookup m k v : In (k, v) (rangeOrder m) ↔ m !! k = Some v.
Proof.
  rewrite <- list_elem_of_In, rangeOrder_perm. apply elem_of_map_to_list.
Qed.

Lemma Run_panic argv σ : tokenize argv = None → run argv σ = (None, σ).
Proof. intros H. unfold Run, bind, orPanic. by rewrite H. Qed.

Lemma Run_help argv σ p :
  tokenize argv = Some p → helpAsked p →
  run argv σ = (showHelp (helpTarget p) ⨾ ret []) σ.
Proof.
  intros H Hh%wantsHelp_asked. unfold Run, bind at 1, orPanic.
  rewrite H, Hh. unfold helpTarget. by destruct (cmdArgs p).
Qed.

Lemma Run_unrecognized argv σ p :
  tokenize argv = Some p → ¬ helpAsked p →
  find (registry σ) (cmdName p) = None →
  run argv σ = (Some [], recorded (Fail (UnrecognizedCommand (cmdName p))) σ).
Proof.
  intros H Hh%wantsHelp_not_asked Hf. unfold Run, bind, orPanic, getApp.
  by rewrite H, Hh, Hf.
Qed.

Lemma Run_arity argv σ p cmd needs :
  tokenize argv = Some p → ¬ helpAsked p →
  find (registry σ) (cmdName p) = Some cmd →
  arityMismatch cmd (cmdArgs p) = true →
  formatCmdArgs (Args cmd) = Some needs →
  run argv σ =
  (Some [], recorded (Fail (ArityMismatch (llen (cmdArgs p)) (cmdName p) needs)) σ).
Proof.
  intros H Hh%wantsHelp_not_asked Hf Ha Hn.
  unfold Run, bind, orPanic, getApp. by rewrite H, Hh, Hf, Ha, Hn.
Qed.

Lemma Run_checked argv σ p cmd :
  tokenize argv = Some p → ¬ helpAsked p →
  find (registry σ) (cmdName p) = Some cmd →
  arityMismatch cmd (cmdArgs p) = false →
  run argv σ =
  (Some [],
   recorded
     match checkOptions (AppOptions (registry σ) ++ Options cmd)
             (rangeOrder (options p)) with
     | Some d => Fail d
     | None =>
         match resolveExec (registry σ) cmd with
         | None => Fail (NoExec (cmdName p))
         | Some f => Call f (cmdName p) (cmdArgs p) (options p)
         end
     end σ).
Proof.
  intros H Hh%wantsHelp_not_asked Hf Ha.
  unfold Run, bind, orPanic, getApp. rewrite H, Hh, Hf, Ha.
  destruct (checkOptions _ _); [done|]. by destruct (resolveExec _ _).
Qed.

(** C1. When the parsed invocation does not ask for help, its command
    is registered, the number of positional arguments satisfies the
    arity rule of the command (the exact count, or at least the
    declared count minus one for a variadic command), every supplied
    key matches an entry of the effective option set (global options,
    then the command's own, first match by key) with the right
    cardinality, and [h] is the resolved handler (the command's own
    [Exec], else [DefaultExec]), then [Run] returns after one single
    event, the call of [h] with the parsed command name, the positional
    arguments in input order and the parsed option map, whose keys are
    exactly the keys the option tokens supply. *)
Theorem C1_Run_invokes_handler argv σ p cmd h :
  tokenize argv = Some p →
  ¬ helpAsked p →
  find (registry σ) (cmdName p) = Some cmd →
  accepted (Args cmd) (llen (cmdArgs p)) →
  (∀ k v, options p !! k = Some v →
          legal (AppOptions (registry σ) ++ Options cmd) k v) →
  (Exec cmd = Some h ∨ (Exec cmd = None ∧ DefaultExec (registry σ) = Some h)) →
  Run fmtOption fmtCommand rangeOrder argv σ =
    (Some [], recorded (Call h (cmdName p) (cmdArgs p) (options p)) σ) ∧
  cmdName p :: cmdArgs p = positional (tl argv) ∧
  ∀ k, k ∈ dom (options p) ↔ ∃ t v, In t (tl argv) ∧ supplies t k v.
Proof.
  intros Hp Hh Hf Ha Hl He.
  assert (cmdName p ≠ "") as Hn by (intros ?; apply Hh; by left).
  destruct (tokenize_parsed _ _ Hp Hn) as [Hpos Hdom].
  split_and!; [|done|by intros k; rewrite elem_of_dom].
  rewrite (Run_checked _ _ _ _ Hp Hh Hf)
    by by apply arityMismatch_accepted.
  rewrite (proj2 (checkOptions_None _ _)).
  - unfold resolveExec. by destruct He as [->|[-> ->]].
  - intros k v Hin%rangeOrder_lookup. by apply Hl.
Qed.

(** C4. For a resolved command outside the help path, [Run] gets past
    the arity check exactly when the count of positional arguments is
    accepted: at least the declared count minus one when the declared
    list ends in a variadic marker, equal to the declared count
    otherwise.  When the count is not accepted the single event of the
    run is the usage message; no handler is invoked.  When it is
    accepted the single event is not a usage message. *)
Theorem C4_Run_arity argv σ p cmd :
  tokenize argv = Some p →
  ¬ helpAsked p →
  find (registry σ) (cmdName p) = Some cmd →
  ∃ e, Run fmtOption fmtCommand rangeOrder argv σ = (Some [], recorded e σ) ∧
    (accepted (Args cmd) (llen (cmdArgs p)) →
       ∀ given name needs, e ≠ Fail (ArityMismatch given name needs)) ∧
    (¬ accepted (Args cmd) (llen (cmdArgs p)) →
       ∃ needs, formatCmdArgs (Args cmd) = Some needs ∧
         e = Fail (ArityMismatch (llen (cmdArgs p)) (cmdName p) needs)).
Proof.
  intros Hp Hh Hf.
  destruct (arityMismatch cmd (cmdArgs p)) eqn:Ha.
  - destruct (formatCmdArgs_Some (Args cmd)) as [needs Hneeds].
    eexists. split; [by apply (Run_arity _ _ _ _ _ Hp Hh Hf Ha Hneeds)|].
    split; [|by eauto]. intros Hacc%arityMismatch_accepted. congruence.
  - eexists. split; [by apply (Run_checked _ _ _ _ Hp Hh Hf Ha)|].
    split.
    + intros _ given name needs.
      destruct (checkOptions _ _) as [d|] eqn:Hc.
      * intros [= ->]. clear -Hc.
        induction (rangeOrder (options p)) as [|[k v] l IH]; [done|].
        cbn [checkOptions] in Hc.
        destruct (findOption _ k); [|done].
        repeat (destruct (_ && _) in Hc; [done|]). auto.
      * by destruct (resolveExec _ _).
    + intros Hn. exfalso. by apply Hn, arityMismatch_accepted.
Qed.

(** C5. Outside the help path, for a resolved command whose arity
    check has passed: the loop over the supplied options stops at the
    first entry, in the order of the iteration, that is not legal for
    the effective option set (global options followed by the command's
    own, first match by key), and the single event of the run is the
    diagnostic of that entry: unrecognized option when no entry has the
    key, option takes no value when the matched entry is boolean and a
    value was given, option requires a value when the matched entry
    takes a value and none was given.  Hence whenever some supplied key
    is not legal, the run ends with one such diagnostic and invokes no
    handler. *)
Theorem C5_Run_option_check argv σ p cmd :
  tokenize argv = Some p →
  ¬ helpAsked p →
  find (registry σ) (cmdName p) = Some cmd →
  accepted (Args cmd) (llen (cmdArgs p)) →
  let all := AppOptions (registry σ) ++ Options cmd in
  (∀ pre k v post d,
     rangeOrder (options p) = pre ++ (k, v) :: post →
     (∀ k0 v0, In (k0, v0) pre → legal all k0 v0) →
     violation all k v d →
     Run fmtOption fmtCommand rangeOrder argv σ = (Some [], recorded (Fail d) σ)) ∧
  (∀ k v, options p !! k = Some v → ¬ legal all k v →
     ∃ k' v' d, options p !! k' = Some v' ∧ violation all k' v' d ∧
                Run fmtOption fmtCommand rangeOrder argv σ = (Some [], recorded (Fail d) σ)).
Proof.
  intros Hp Hh Hf Ha%arityMismatch_accepted all.
  assert (∀ pre k v post d,
     rangeOrder (options p) = pre ++ (k, v) :: post →
     (∀ k0 v0, In (k0, v0) pre → legal all k0 v0) →
     violation all k v d →
     run argv σ = (Some [], recorded (Fail d) σ)) as Hfirst.
  { intros pre k v post d Hr Hpre Hv.
    rewrite (Run_checked _ _ _ _ Hp Hh Hf Ha), Hr.
    by rewrite (checkOptions_first _ _ _ _ _ _ Hpre Hv). }
  split; [done|]. intros k v Hkv Hnl.
  apply rangeOrder_lookup in Hkv.
  destruct (first_violation all _ _ _ Hkv Hnl)
    as (pre & k' & v' & post & d & Hr & Hpre & Hv).
  exists k', v', d. split_and!; [|done|by eauto].
  apply rangeOrder_lookup. rewrite Hr. apply in_or_app. right. by left.
Qed.

(** [Run] returns normally on every argument vector that tokenizes. *)
Lemma Run_returns argv σ p :
  tokenize argv = Some p → ∃ σ', run argv σ = (Some [], σ').
Proof.
  intros Hp. destruct (wantsHelp p) eqn:Hh.
  - apply wantsHelp_asked in Hh. rewrite (Run_help _ _ _ Hp Hh).
    destruct (ShowHelp_prints fmtOption fmtCommand (registry σ) (helpTarget p))
      as [out Hout].
    destruct σ as [app t]. unfold bind. simpl in *. rewrite Hout. by eauto.
  - apply wantsHelp_not_asked in Hh.
    destruct (find (registry σ) (cmdName p)) as [cmd|] eqn:Hf.
    + destruct (arityMismatch cmd (cmdArgs p)) eqn:Ha.
      * destruct (formatCmdArgs_Some (Args cmd)) as [needs Hneeds].
        rewrite (Run_arity _ _ _ _ _ Hp Hh Hf Ha Hneeds). by eauto.
      * rewrite (Run_checked _ _ _ _ Hp Hh Hf Ha). by eauto.
    + rewrite (Run_unrecognized _ _ _ Hp Hh Hf). by eauto.
Qed.

(** C6, as the code has it.  [Run] has no result: outside the help
    path it returns with the empty list of values after one single
    event.  For each failure [Run] detects itself that event is the
    diagnostic of that failure and no handler is invoked: the
    unrecognized command with its name; the arity mismatch with the
    count given, the name and the formatted arguments of the command;
    for an invocation whose count is accepted and that supplies an
    option that is not legal, the diagnostic of the first supplied
    entry, in the order of the iteration, that is not legal; the
    missing handler when the command has none and the application has
    no default.  Otherwise the event is the call of the resolved
    handler, which hands back no value either. *)
Theorem C6_Run_returns_no_value argv σ p :
  tokenize argv = Some p →
  ¬ helpAsked p →
  ∃ e, Run fmtOption fmtCommand rangeOrder argv σ = (Some [], recorded e σ) ∧
    (find (registry σ) (cmdName p) = None →
       e = Fail (UnrecognizedCommand (cmdName p))) ∧
    (∀ cmd, find (registry σ) (cmdName p) = Some cmd →
       let all := AppOptions (registry σ) ++ Options cmd in
       (¬ accepted (Args cmd) (llen (cmdArgs p)) →
          ∃ needs, formatCmdArgs (Args cmd) = Some needs ∧
            e = Fail (ArityMismatch (llen (cmdArgs p)) (cmdName p) needs)) ∧
       (accepted (Args cmd) (llen (cmdArgs p)) →
          (∀ k v, options p !! k = Some v → ¬ legal all k v →
             ∃ pre k' v' post d,
               rangeOrder (options p) = pre ++ (k', v') :: post ∧
               (∀ k0 v0, In (k0, v0) pre → legal all k0 v0) ∧
               options p !! k' = Some v' ∧
               violation all k' v' d ∧
               e = Fail d) ∧
          ((∀ k v, options p !! k = Some v → legal all k v) →
             match Exec cmd, DefaultExec (registry σ) with
             | Some h, _ => e = Call h (cmdName p) (cmdArgs p) (options p)
             | None, Some h => e = Call h (cmdName p) (cmdArgs p) (options p)
             | None, None => e = Fail (NoExec (cmdName p))
             end))).
Proof.
  intros Hp Hh.
  destruct (find (registry σ) (cmdName p)) as [cmd|] eqn:Hf.
  - destruct (arityMismatch cmd (cmdArgs p)) eqn:Ha.
    + destruct (formatCmdArgs_Some (Args cmd)) as [needs Hneeds].
      eexists. split; [by apply (Run_arity _ _ _ _ _ Hp Hh Hf Ha Hneeds)|].
      split; [done|]. intros ? [= <-] all. split; [by exists needs|].
      intros Hacc%arityMismatch_accepted. congruence.
    + eexists. split; [by apply (Run_checked _ _ _ _ Hp Hh Hf Ha)|].
      split; [done|]. intros ? [= <-] all. split.
      { intros Hn. exfalso. by apply Hn, arityMismatch_accepted. }
      intros _. split.
      * intros k v Hkv%rangeOrder_lookup Hnl.
        destruct (first_violation all _ _ _ Hkv Hnl)
          as (pre & k' & v' & post & d & Hr & Hpre & Hv).
        exists pre, k', v', post, d. split_and!; [done..| |done|].
        -- apply rangeOrder_lookup. rewrite Hr. apply in_or_app.
           right. by left.
        -- fold all. by rewrite Hr, (checkOptions_first _ _ _ _ _ _ Hpre Hv).
      * intros Hall. rewrite (proj2 (checkOptions_None _ _)).
        { unfold resolveExec. destruct (Exec cmd); [done|].
          by destruct (DefaultExec (registry σ)). }
        intros k v Hin%rangeOrder_lookup. by apply Hall.
  - eexists. split; [by apply (Run_unrecognized _ _ _ Hp Hh Hf)|].
    split; [done|]. by intros.
Qed.

(** C10. [Run] panics, having printed nothing and invoked nothing,
    exactly when some token after the first is the empty string: the
    tokenization loop then evaluates [arg[0:1]] on that token.  It
    returns normally exactly when every token after the first is
    non-empty. *)
Theorem C10_Run_panics_on_empty_token argv σ :
  (Run fmtOption fmtCommand rangeOrder argv σ = (None, σ) ↔ In "" (tl argv)) ∧
  ((∃ σ', Run fmtOption fmtCommand rangeOrder argv σ = (Some [], σ')) ↔ ¬ In "" (tl argv)).
Proof.
  destruct (tokenize argv) as [p|] eqn:Hp.
  - destruct (Run_returns _ σ _ Hp) as [σ' Hr].
    assert (¬ In "" (tl argv)) as Hn.
    { intros H%tokenize_panics. congruence. }
    split; [split; [by rewrite Hr|done]|]. split; [done|by eauto].
  - pose proof (proj1 (tokenize_panics _) Hp) as Hin.
    rewrite (Run_panic _ _ Hp). split; [done|].
    split; [by intros [? ?]|]. by intros [].
Qed.
End RunProperties.

(** The separate pieces [strings_Split] gives are those of the text. *)
Lemma strings_Join_Split s c :
  strings_Join (strings_Split s c) (String c "") = s.
Proof.
  induction s as [|a s IH]; [done|]. simpl.
  destruct (strings_Split_cons s c) as (w & ws & Hs). rewrite Hs in *.
  destruct (Ascii.eqb_spec a c) as [->|Hne].
  - change (strings_Join ("" :: w :: ws) (String c ""))
      with ("" +:+ String c "" +:+ strings_Join (w :: ws) (String c "")).
    by rewrite IH.
  - destruct ws; simpl in *; str_simpl; by rewrite IH.
Qed.

(** C2. Tokenization of the argument vector without its first element
    gives a result whenever none of these tokens is empty.  In the map
    of the result an option token [-key=value] gives the key that value
    and a bare [-key] gives it the empty string, in both cases when no
    later token supplies the same key, whatever earlier tokens did (the
    last occurrence wins, without error); a key that no token supplies
    is absent from the map. *)
Theorem C2_tokenize_options argv :
  ¬ In "" (tl argv) →
  ∃ p, tokenize argv = Some p ∧
    (∀ pre key value post,
       tl argv = pre ++ ("-" +:+ key +:+ "=" +:+ value) :: post →
       ¬ In "="%char (bytes key) →
       (∀ t v, In t post → ¬ supplies t key v) →
       options p !! key = Some value) ∧
    (∀ pre key post,
       tl argv = pre ++ ("-" +:+ key) :: post →
       ¬ In "="%char (bytes key) →
       (∀ t v, In t post → ¬ supplies t key v) →
       options p !! key = Some "") ∧
    (∀ key, (∀ t v, In t (tl argv) → ¬ supplies t key v) →
       options p !! key = None).
Proof.
  intros Hne. destruct (tokenize argv) as [p|] eqn:Hp.
  2:{ by apply tokenize_panics in Hp. }
  exists p. split; [done|]. rewrite tokenize_tl in Hp. split_and!.
  - intros pre key value post Heq Hk Hpost. rewrite Heq in Hp.
    eapply (tokenizeLoop_last 1); [lia|done| |done]. split; [done|by left].
  - intros pre key post Heq Hk Hpost. rewrite Heq in Hp.
    eapply (tokenizeLoop_last 1); [lia|done| |done]. split; [done|by right].
  - intros key Hno.
    rewrite (tokenizeLoop_other 1 _ _ _ key ltac:(lia) Hp Hno). apply lookup_empty.
Qed.

(** ** Word wrap *)

Lemma spaced_snoc cur w : spaced (cur ++ [w]) = spaced cur +:+ w +:+ " ".
Proof.
  induction cur as [|c cur IH]; [done|].
  rewrite <- app_comm_cons. unfold spaced in *. cbn [foldr].
  by rewrite IH, !app_assoc_str.
Qed.

Lemma lineOf_snoc cur w : lineOf (cur ++ [w]) = spaced cur +:+ w.
Proof.
  unfold lineOf. induction cur as [|c cur IH]; [done|].
  rewrite <- app_comm_cons. cbn [strings_Join].
  destruct (cur ++ [w]) as [|x l] eqn:Hl; [by destruct cur|].
  rewrite IH. unfold spaced. cbn [foldr]. by rewrite !app_assoc_str.
Qed.

Lemma lineOf_snoc_empty cur w : lineOf (cur ++ [w]) = "" → cur = [] ∧ w = "".
Proof.
  rewrite lineOf_snoc. intros H%len_empty. rewrite len_app in H.
  destruct cur as [|c cur].
  - split; [done|]. apply len_empty. unfold spaced in H. simpl in H.
    change (len "") with 0 in H. lia.
  - exfalso. unfold spaced in H. cbn [foldr] in H. rewrite !len_app in H.
    change (len " ") with 1 in H.
    pose proof (len_nonneg c). pose proof (len_nonneg w).
    pose proof (len_nonneg (foldr (λ w acc, w +:+ " " +:+ acc) "" cur)). lia.
Qed.

(** The loop, from any of its turns: the words still to come join the
    words [cur] of the line under construction; the lines that come out
    are the lines of consecutive groups of these words. *)
Lemma wrapLoop_groups n ws :
  ∀ i cur lines line ls,
    ws ≠ [] → i = n - llen ws →
    (cur ≠ [] → len (lineOf cur) ≤ width) →
    wrapLoop n i ws (spaced cur) lines = (line, ls) →
    ∃ groups rest,
      cur ++ ws = concat groups ++ rest ∧ (rest = [] ∨ rest = [""]) ∧
      (if bool_decide (len line ≠ 0) then ls ++ [line] else ls)
        = lines ++ (lineOf <$> groups) ∧
      (∀ g, In g groups → g ≠ []) ∧
      (∀ pre g post, groups = pre ++ g :: post → post ≠ [] →
                     width < len (lineOf g)) ∧
      (∀ g g' w, In g groups → g = g' ++ [w] → g' ≠ [] →
                 len (lineOf g') ≤ width).
Proof.
  induction ws as [|w ws IH]; [done|].
  intros i cur lines line ls _ Hi Hcur. cbn [wrapLoop].
  rewrite <- lineOf_snoc.
  assert (∀ g' w', cur ++ [w] = g' ++ [w'] → g' ≠ [] → len (lineOf g') ≤ width)
    as Hlast.
  { intros g' w' [<- _]%app_inj_tail. done. }
  unfold llen in Hi. cbn [length] in Hi.
  case_bool_decide as Hlong.
  - (* the line is flushed *)
    destruct ws as [|w2 ws].
    + intros [= <- <-]. exists [cur ++ [w]], [].
      split_and!; [by rewrite concat_cons, !app_nil_r|by left|done| | |].
      * intros g [<-|[]]. by destruct cur.
      * intros pre g post Hg. by destruct pre as [|? [|? ?]], post.
      * intros g g' w' [<-|[]]. apply Hlast.
    + intros Hloop.
      destruct (IH (i + 1) [] (lines ++ [lineOf (cur ++ [w])]) line ls)
        as (groups & rest & Hcat & Hrest & Hout & Hne & Hbut & Hdrop);
        [done|unfold llen; cbn [length] in *; lia|done|done|].
      exists ((cur ++ [w]) :: groups), rest.
      split_and!; [|done| | | |].
      * rewrite concat_cons, <- !app_assoc. f_equal. simpl in *. by f_equal.
      * rewrite Hout, fmap_cons. by rewrite <- app_assoc.
      * intros g [<-|?]; [by destruct cur|by apply Hne].
      * intros [|g0 pre] g post [= ? ?] Hpost; simplify_eq; [lia|].
        by eapply Hbut.
      * intros g g' w' [<-|?]; [apply Hlast|by apply Hdrop].
  - case_bool_decide as Hmore.
    + (* more words follow on the same line *)
      destruct ws as [|w2 ws]; [cbn [length] in *; lia|].
      replace (lineOf (cur ++ [w]) +:+ " ") with (spaced (cur ++ [w]))
        by (by rewrite spaced_snoc, lineOf_snoc, app_assoc_str).
      intros Hloop.
      destruct (IH (i + 1) (cur ++ [w]) lines line ls)
        as (groups & rest & Hcat & Hrest & Hout & Hne & Hbut & Hdrop);
        [done|unfold llen; cbn [length] in *; lia|intros _; lia|done|].
      exists groups, rest. split_and!; [|done..].
      by rewrite <- Hcat, <- app_assoc.
    + (* the last word of the text *)
      destruct ws as [|w2 ws]; [|cbn [length] in *; lia].
      intros [= <- <-]. case_bool_decide as Hempty.
      * exists [cur ++ [w]], [].
        split_and!; [by rewrite concat_cons, !app_nil_r|by left|done| | |].
        -- intros g [<-|[]]. by destruct cur.
        -- intros pre g post Hg. by destruct pre as [|? [|? ?]], post.
        -- intros g g' w' [<-|[]]. apply Hlast.
      * apply len_empty, lineOf_snoc_empty in Hempty as [-> ->].
        exists [], [""].
        split_and!; [done|by right|by rewrite app_nil_r|by intros ? []| |].
        -- intros pre g post Hg. by destruct pre.
        -- by intros ??? [].
Qed.

(** C8, as the code has it.  The text is split on single spaces into
    words; the lines are the lines of consecutive groups of these words,
    one space between the words of a line; only a last word that is
    empty and alone is left out.  No line is empty and no word is split.
    A line is flushed once it is longer than 55 bytes with the word just
    appended: every line but the last is longer than 55 bytes, and a
    line of several words is within 55 bytes without its last word. *)
Theorem C8_formatTextIntoLines_groups text firstLineIndent otherLinesIndent :
  ∃ groups rest,
    strings_Split text " " = concat groups ++ rest ∧
    (rest = [] ∨ rest = [""]) ∧
    formatTextIntoLines text firstLineIndent otherLinesIndent
      = lineOf <$> groups ∧
    (∀ g, In g groups → g ≠ []) ∧
    (∀ pre g post, groups = pre ++ g :: post → post ≠ [] →
                   width < len (lineOf g)) ∧
    (∀ g g' w, In g groups → g = g' ++ [w] → g' ≠ [] →
               len (lineOf g') ≤ width).
Proof.
  unfold formatTextIntoLines.
  destruct (wrapLoop _ _ _ _ _) as [line ls] eqn:Hloop.
  destruct (wrapLoop_groups (llen (strings_Split text " "))
              (strings_Split text " ") 0 [] [] line ls)
    as (groups & rest & H); [|lia|done|done|by exists groups, rest].
  by destruct (strings_Split_cons text " ") as (w & ws & ->).
Qed.

(** ** The example application *)

Lemma exampleApp_commands :
  exampleApp =
  mkApp "myapp [options] command" (Some exec)
        [startCmd; initializeCmd; varargsCmd] [].
Proof. reflexivity. Qed.

(** A variadic command that declares [a] and [...items] takes one
    positional argument or more. *)
Lemma accepted_a_items given : accepted ["a"; "...items"] given ↔ 1 ≤ given.
Proof.
  assert (variadic ["a"; "...items"]) as Hv by by exists ["a"], "items".
  unfold accepted. change (llen ["a"; "...items"]) with 2.
  split; [intros [[_ ?]|[? _]]; [lia|done]|]. intros ?. left. split; [done|lia].
Qed.

Section Scenarios.
Variable fmtOption : Z → string → string.
Variable fmtCommand : Z → string → string → string.
Variable rangeOrder : gmap string string → list (string * string).
Hypothesis rangeOrder_perm : ∀ m, rangeOrder m ≡ₚ map_to_list m.

Lemma rangeOrder_singleton k v : rangeOrder {[k := v]} = [(k, v)].
Proof.
  apply Permutation_singleton_r. rewrite rangeOrder_perm.
  by rewrite map_to_list_singleton.
Qed.

(** C7, as the code has it.  In the example application the invocation
    [initialize -clean strength=2] passes the arity check: [strength=2]
    has no leading hyphen, so it is the one positional argument that
    [initialize] declares, and the handler is invoked once, with it and
    with the option [clean].  Written [-strength=2] the token is an
    option token and is not counted: the same invocation then fails the
    arity check with 0 positional arguments given, and no handler is
    invoked. *)
Theorem C7_initialize_clean_strength :
  Run fmtOption fmtCommand rangeOrder
      ["myapp"; "initialize"; "-clean"; "strength=2"] exampleState
    = (Some [],
       recorded (Call exec "initialize" ["strength=2"] {["clean" := ""]})
                exampleState) ∧
  Run fmtOption fmtCommand rangeOrder
      ["myapp"; "initialize"; "-clean"; "-strength=2"] exampleState
    = (Some [],
       recorded (Fail (ArityMismatch 0 "initialize" "root-directory"))
                exampleState).
Proof.
  split.
  - rewrite (Run_checked _ _ _ _ _
               (mkParsed {["clean" := ""]} "initialize" ["strength=2"])
               initializeCmd); [|done|by apply wantsHelp_not_asked|done..].
    cbn [options]. by rewrite rangeOrder_singleton.
  - by rewrite (Run_arity _ _ _ _ _
               (mkParsed {["clean" := ""; "strength" := "2"]} "initialize" [])
               initializeCmd "root-directory");
      [|done|by apply wantsHelp_not_asked|done..].
Qed.
End Scenarios.

(** ** The statements on concrete invocations *)

Lemma map_to_list_perm (m : gmap string string) : map_to_list m ≡ₚ map_to_list m.
Proof. reflexivity. Defined.

Lemma map_to_list_In (m : gmap string string) k v :
  m !! k = Some v → In (k, v) (map_to_list m).
Proof. intros H. by apply list_elem_of_In, elem_of_map_to_list. Qed.

Lemma C1_witness :
  exampleRun ["myapp"; "initialize"; "-clean"; "/data"; "-strength=2"]
             exampleState
  = (Some [],
     recorded (Call exec "initialize" ["/data"]
                 {["clean" := ""; "strength" := "2"]}) exampleState).
Proof.
  destruct (C1_Run_invokes_handler paddedOption paddedCommand map_to_list
           map_to_list_perm
           ["myapp"; "initialize"; "-clean"; "/data"; "-strength=2"]
           exampleState
           (mkParsed {["clean" := ""; "strength" := "2"]} "initialize" ["/data"])
           initializeCmd exec) as [Hrun _]; [| | | | | |exact Hrun].
  - vm_compute; reflexivity.
  - apply wantsHelp_not_asked. vm_compute; reflexivity.
  - vm_compute; reflexivity.
  - apply (arityMismatch_accepted initializeCmd). vm_compute; reflexivity.
  - intros k v Hkv.
    apply (proj1 (checkOptions_None (Options initializeCmd)
                    (map_to_list {["clean" := ""; "strength" := "2"]}))).
    + vm_compute; reflexivity.
    + apply map_to_list_In. exact Hkv.
  - right. split; reflexivity.
Defined.

Lemma C2_witness :
  ∃ p, tokenize ["myapp"; "-k=1"; "cmd"; "-k=2"; "-b"] = Some p ∧
       options p !! "k" = Some "2" ∧ options p !! "b" = Some "" ∧
       options p !! "strength" = None.
Proof.
  destruct (C2_tokenize_options ["myapp"; "-k=1"; "cmd"; "-k=2"; "-b"])
    as (p & Hp & Hkv & Hk & Hnone).
  - simpl. intros [H|[H|[H|[H|[]]]]]; discriminate H.
  - exists p. split; [exact Hp|]. split; [|split].
    + apply (Hkv ["-k=1"; "cmd"] "k" "2" ["-b"]).
      * reflexivity.
      * simpl. intros [H|[]]. discriminate H.
      * intros t v [<-|[]] [_ [H|[H _]]]; discriminate H.
    + apply (Hk ["-k=1"; "cmd"; "-k=2"] "b" []).
      * reflexivity.
      * simpl. intros [H|[]]. discriminate H.
      * intros t v [].
    + apply Hnone. intros t v Hin [_ [H|[H _]]].
      * simpl in Hin. destruct Hin as [<-|[<-|[<-|[<-|[]]]]]; discriminate H.
      * simpl in Hin. destruct Hin as [<-|[<-|[<-|[<-|[]]]]]; discriminate H.
Defined.

Lemma C4_witness :
  ∃ e, exampleRun ["myapp"; "varargs"] exampleState
         = (Some [], recorded e exampleState) ∧
       e = Fail (ArityMismatch 0 "varargs" "param1 things1 things2 things3...").
Proof.
  destruct (C4_Run_arity paddedOption paddedCommand map_to_list
              ["myapp"; "varargs"] exampleState
              (mkParsed ∅ "varargs" []) varargsCmd)
    as (e & Hrun & _ & Hfail).
  - vm_compute; reflexivity.
  - apply wantsHelp_not_asked. vm_compute; reflexivity.
  - vm_compute; reflexivity.
  - exists e. split; [exact Hrun|].
    destruct Hfail as (needs & Hneeds & ->).
    + intros Hacc. apply (arityMismatch_accepted varargsCmd) in Hacc.
      discriminate Hacc.
    + vm_compute in Hneeds. injection Hneeds as <-. reflexivity.
Defined.

Lemma C5_witness :
  exampleRun ["myapp"; "initialize"; "/data"; "-strength"] exampleState
  = (Some [],
     recorded (Fail (OptionRequiresValue "strength" "howstrong")) exampleState).
Proof.
  destruct (C5_Run_option_check paddedOption paddedCommand map_to_list
              map_to_list_perm
              ["myapp"; "initialize"; "/data"; "-strength"] exampleState
              (mkParsed {["strength" := ""]} "initialize" ["/data"])
              initializeCmd)
    as [Hfirst _].
  - vm_compute; reflexivity.
  - apply wantsHelp_not_asked. vm_compute; reflexivity.
  - vm_compute; reflexivity.
  - apply (arityMismatch_accepted initializeCmd). vm_compute; reflexivity.
  - apply (Hfirst [] "strength" "" []).
    + vm_compute; reflexivity.
    + intros k0 v0 [].
    + right. right.
      exists (mkOption "strength" "howstrong" "Strong values clean more files").
      split; [|split; [discriminate|split; reflexivity]].
      apply findOption_Some. vm_compute; reflexivity.
Defined.

Lemma C6_witness :
  exampleRun ["myapp"; "initialize"; "/data"; "-clean=yes"] exampleState
  = (Some [], recorded (Fail (OptionTakesNoValue "clean")) exampleState).
Proof.
  destruct (C6_Run_returns_no_value paddedOption paddedCommand map_to_list
              map_to_list_perm
              ["myapp"; "initialize"; "/data"; "-clean=yes"] exampleState
              (mkParsed {["clean" := "yes"]} "initialize" ["/data"]))
    as (e & Hrun & _ & Hcmd).
  - vm_compute; reflexivity.
  - apply wantsHelp_not_asked. vm_compute; reflexivity.
  - destruct (Hcmd initializeCmd) as [_ Hacc].
    { vm_compute; reflexivity. }
    destruct Hacc as [Hviol _].
    { apply (arityMismatch_accepted initializeCmd). vm_compute; reflexivity. }
    destruct (Hviol "clean" "yes") as (pre & k' & v' & post & d & _ & _ & Hk & Hv & He).
    { vm_compute; reflexivity. }
    { intros (o & Ho & Hiff). apply findOption_Some in Ho.
      vm_compute in Ho. injection Ho as <-. simpl in Hiff.
      destruct Hiff as [Hiff _]. discriminate (Hiff eq_refl). }
    cbn [options] in Hk. apply lookup_singleton_Some in Hk as [<- <-].
    unfold exampleRun. rewrite Hrun, He. do 3 f_equal.
    destruct Hv as [[Hno _]|[(o & _ & _ & _ & Hd)|(o & Ho & _ & Hempty & _)]].
    + exfalso. apply (Hno (mkOption "clean" "" "Clean all files")); [|reflexivity].
      vm_compute. left. reflexivity.
    + exact Hd.
    + discriminate Hempty.
Defined.

Lemma C7_witness :
  exampleRun ["myapp"; "initialize"; "-clean"; "strength=2"] exampleState
    = (Some [],
       recorded (Call exec "initialize" ["strength=2"] {["clean" := ""]})
                exampleState) ∧
  exampleRun ["myapp"; "initialize"; "-clean"; "-strength=2"] exampleState
    = (Some [],
       recorded (Fail (ArityMismatch 0 "initialize" "root-directory"))
                exampleState).
Proof.
  apply (C7_initialize_clean_strength paddedOption paddedCommand
           map_to_list map_to_list_perm).
Defined.

(** The claim of an exit code 1 fails: for a command that is not
    registered [Run] prints its diagnostic and hands back no value. *)
Lemma C6_counterexample :
  exampleRun ["myapp"; "nosuch"] exampleState
    = (Some [], recorded (Fail (UnrecognizedCommand "nosuch")) exampleState) ∧
  (exampleRun ["myapp"; "nosuch"] exampleState).1 ≠ Some [1].
Proof. split; [vm_compute; reflexivity|]. vm_compute. discriminate. Qed.

(** The claim of an arity failure fails: the run of
    [initialize -clean strength=2] ends with the call of the handler. *)
Lemma C7_counterexample :
  ¬ (∃ needs,
       exampleRun ["myapp"; "initialize"; "-clean"; "strength=2"] exampleState
       = (Some [],
          recorded (Fail (ArityMismatch 0 "initialize" needs)) exampleState)).
Proof. intros [needs H]. vm_compute in H. discriminate H. Qed.

(** A line of ten words, none longer than five bytes, comes out at 59
    bytes: it is not so that only a line of one single long word may
    exceed the width. *)
Lemma C8_counterexample :
  ¬ (∀ text line,
       In line (formatTextIntoLines text 0 0) → width < len line →
       ¬ In " "%char (bytes line)).
Proof.
  intros H.
  apply (H elevenWords
           "aaaaa bbbbb ccccc ddddd eeeee fffff ggggg hhhhh iiiii jjjjj").
  - left. reflexivity.
  - vm_compute; reflexivity.
  - simpl. tauto.
Qed.

(** The three invocations of [TestExampleApplication] all end with the
    call of the handler. *)
Lemma TestExampleApplication_runs :
  exampleRun ["myapp"; "start"; "/folder1/folder2"; "8669"] exampleState
    = (Some [],
       recorded (Call exec "start" ["/folder1/folder2"; "8669"] ∅) exampleState) ∧
  exampleRun ["myapp"; "initialize"; "-clean"; "strength=2"] exampleState
    = (Some [],
       recorded (Call exec "initialize" ["strength=2"] {["clean" := ""]})
                exampleState) ∧
  exampleRun ["myapp"; "varargs"; "param1"; "param2"; "param3"] exampleState
    = (Some [],
       recorded (Call exec "varargs" ["param1"; "param2"; "param3"] ∅)
                exampleState).
Proof. split_and!; vm_compute; reflexivity. Qed.

(** * Further properties of the package *)

(** ** Tokenization *)

Lemma tokenizeLoop_index i j tokens p :
  0 < i → 0 < j → tokenizeLoop i tokens p = tokenizeLoop j tokens p.
Proof.
  revert i j p. induction tokens as [|t rest IH]; intros i j p Hi Hj; [done|].
  rewrite !tokenizeLoop_cons by done.
  destruct (tokenStep p t) as [q|]; [|done]. cbn [mbind option_bind].
  apply IH; lia.
Qed.

Lemma tokenizeLoop_step t rest p :
  tokenizeLoop 1 (t :: rest) p = tokenStep p t ≫= tokenizeLoop 1 rest.
Proof.
  rewrite tokenizeLoop_cons by lia.
  destruct (tokenStep p t) as [q|]; [|done]. cbn [mbind option_bind].
  apply tokenizeLoop_index; lia.
Qed.

(** An option token and a token that is none can change places. *)
Lemma tokenStep_swap p t o (k : Parsed → option Parsed) :
  String.prefix "-" t = false → String.prefix "-" o = true →
  (tokenStep p t ≫= λ q, tokenStep q o ≫= k) =
  (tokenStep p o ≫= λ q, tokenStep q t ≫= k).
Proof.
  intros Ht Ho.
  assert (∃ kk v, ∀ q, tokenStep q o =
            Some (mkParsed (<[kk := v]> (options q)) (cmdName q) (cmdArgs q)))
    as (kk & v & Hstep).
  { destruct (tokenStep_cases p o) as [[-> _]|[(kk & v & Hs & _)|(_ & Hp & _)]];
      [done| |congruence].
    exists kk, v. intros q.
    destruct (tokenStep_cases q o) as [[-> _]|[(k' & v' & Hs' & H)|(_ & Hp & _)]];
      [done| |congruence].
    by destruct (supplies_fun _ _ _ _ _ Hs Hs') as [-> ->]. }
  rewrite (Hstep p). cbn [mbind option_bind].
  destruct (tokenStep_cases p t) as [[-> H]|[(k' & v' & Hs & _)|(Hne & _ & H)]].
  - rewrite H. cbn [mbind option_bind].
    pose proof (proj2 (tokenStep_panics
      (mkParsed (<[kk:=v]> (options p)) (cmdName p) (cmdArgs p)) "") eq_refl)
      as Hq.
    by rewrite Hq.
  - destruct (supplies_dash _ _ _ Hs) as [r ->].
    by rewrite prefix_byte_eq in Ht.
  - rewrite H. cbn [mbind option_bind]. rewrite Hstep.
    cbn [mbind option_bind].
    destruct (tokenStep_cases
                (mkParsed (<[kk:=v]> (options p)) (cmdName p) (cmdArgs p)) t)
      as [[-> _]|[(k' & v' & Hs & _)|(_ & _ & H')]]; [done| |].
    + destruct (supplies_dash _ _ _ Hs) as [r ->].
      by rewrite prefix_byte_eq in Ht.
    + rewrite H'. simpl. by destruct (bool_decide (cmdName p = "")).
Qed.

Lemma tokenizeLoop_move t os ps p :
  String.prefix "-" t = false →
  Forall (λ o, String.prefix "-" o = true) os →
  tokenizeLoop 1 (t :: os ++ ps) p = tokenizeLoop 1 (os ++ t :: ps) p.
Proof.
  intros Ht Hos. revert p. induction Hos as [|o os Ho Hos IH]; intros p; [done|].
  rewrite <- !app_comm_cons, tokenizeLoop_step.
  transitivity (tokenStep p t ≫= λ q, tokenStep q o ≫= tokenizeLoop 1 (os ++ ps)).
  { destruct (tokenStep p t); [|done]. cbn [mbind option_bind].
    apply tokenizeLoop_step. }
  rewrite tokenStep_swap by done. rewrite tokenizeLoop_step.
  destruct (tokenStep p o) as [q|]; [|done]. cbn [mbind option_bind].
  rewrite <- tokenizeLoop_step. apply IH.
Qed.

(** The loop gives what it gives on the option tokens followed by the
    other tokens. *)
Lemma tokenizeLoop_sorted tokens p :
  tokenizeLoop 1 tokens p =
  tokenizeLoop 1 (optionTokens tokens ++ positional tokens) p.
Proof.
  revert p. induction tokens as [|t rest IH]; intros p; [done|].
  unfold optionTokens, positional. cbn [List.filter].
  destruct (String.prefix "-" t) eqn:Ht; cbn [negb].
  - rewrite <- app_comm_cons, !tokenizeLoop_step.
    destruct (tokenStep p t); [|done]. apply IH.
  - rewrite <- tokenizeLoop_move; [|done|].
    + rewrite !tokenizeLoop_step. destruct (tokenStep p t); [|done]. apply IH.
    + apply Forall_forall. intros o Ho%list_elem_of_In%filter_In. tauto.
Qed.

(** X1. When no token after the first is empty, the first token without
    a leading hyphen is the command name (the empty name when there is
    none) and the others, in their order, are the arguments, wherever
    the option tokens stand among them. *)
Theorem X1_tokenize_positional argv :
  ¬ In "" (tl argv) →
  ∃ p, tokenize argv = Some p ∧
       cmdName p = default "" (head (positional (tl argv))) ∧
       cmdArgs p = tail (positional (tl argv)).
Proof.
  intros Hne. destruct (tokenize argv) as [p|] eqn:Hp.
  2:{ by apply tokenize_panics in Hp. }
  exists p. split; [done|]. rewrite tokenize_tl in Hp.
  apply tokenizeLoop_positional in Hp; [|lia]. simpl in Hp.
  by destruct (positional (tl argv)).
Qed.

(** X2. The result of tokenization, a panic included, depends only on
    the sequence of the option tokens and on the sequence of the other
    tokens, not on how the two are interleaved. *)
Theorem X2_tokenize_interleaving argv1 argv2 :
  optionTokens (tl argv1) = optionTokens (tl argv2) →
  positional (tl argv1) = positional (tl argv2) →
  tokenize argv1 = tokenize argv2.
Proof.
  intros Ho Hp. rewrite !tokenize_tl.
  rewrite (tokenizeLoop_sorted (tl argv1)), (tokenizeLoop_sorted (tl argv2)).
  by rewrite Ho, Hp.
Qed.

(** ** The dispatcher, on every argument vector *)

Section RunEverywhere.
Context {ExecFunc : Type}.
Variable fmtOption : Z → string → string.
Variable fmtCommand : Z → string → string → string.
Variable rangeOrder : gmap string string → list (string * string).
Hypothesis rangeOrder_perm : ∀ m, rangeOrder m ≡ₚ map_to_list m.

Implicit Types (σ : State ExecFunc) (p : Parsed).

(** The ways a run can go. *)
Lemma Run_cases argv σ :
  (tokenize argv = None ∧
   Run fmtOption fmtCommand rangeOrder argv σ = (None, σ)) ∨
  (∃ p out, tokenize argv = Some p ∧ helpAsked p ∧
     Run fmtOption fmtCommand rangeOrder argv σ
       = (Some [], mkState (registry σ) (trace σ ++ (Stdout <$> out)))) ∨
  (∃ p d, tokenize argv = Some p ∧ ¬ helpAsked p ∧
     Run fmtOption fmtCommand rangeOrder argv σ
       = (Some [], recorded (Fail d) σ)) ∨
  (∃ p cmd h, tokenize argv = Some p ∧ ¬ helpAsked p ∧
     find (registry σ) (cmdName p) = Some cmd ∧
     arityMismatch cmd (cmdArgs p) = false ∧
     checkOptions (AppOptions (registry σ) ++ Options cmd)
       (rangeOrder (options p)) = None ∧
     resolveExec (registry σ) cmd = Some h ∧
     Run fmtOption fmtCommand rangeOrder argv σ
       = (Some [], recorded (Call h (cmdName p) (cmdArgs p) (options p)) σ)).
Proof.
  destruct (tokenize argv) as [p|] eqn:Hp.
  2:{ left. split; [done|]. by apply Run_panic. }
  right. destruct (wantsHelp p) eqn:Hh.
  - apply wantsHelp_asked in Hh. left.
    destruct (ShowHelp_prints fmtOption fmtCommand (registry σ) (helpTarget p))
      as [out Hout].
    exists p, out. split_and!; [done..|].
    rewrite (Run_help _ _ _ _ _ _ Hp Hh). destruct σ as [app t].
    unfold bind. simpl in *. by rewrite Hout.
  - apply wantsHelp_not_asked in Hh. right.
    destruct (find (registry σ) (cmdName p)) as [cmd|] eqn:Hf.
    2:{ left. eexists p, _. split_and!; [done..|].
        by apply Run_unrecognized. }
    destruct (arityMismatch cmd (cmdArgs p)) eqn:Ha.
    { destruct (formatCmdArgs_Some (Args cmd)) as [needs Hneeds].
      left. eexists p, _. split_and!; [done..|]. by eapply Run_arity. }
    pose proof (Run_checked fmtOption fmtCommand rangeOrder _ σ _ _ Hp Hh Hf Ha)
      as Hrun.
    destruct (checkOptions _ _) as [d|] eqn:Hc.
    { left. by eexists p, _. }
    destruct (resolveExec _ _) as [h|] eqn:He.
    + right. by exists p, cmd, h.
    + left. by eexists p, _.
Qed.

(** X3. A handler is invoked only on a validated invocation: when the
    events a run adds hold the call of [h] with a name, arguments and
    options, then that call is the only event, the three are what was
    parsed, the argument vector did not ask for help (so a command named
    [help] or the empty name, or the option key [help], never reaches a
    handler), the name is a registered command whose arity rule the
    arguments satisfy, every option is legal for the effective option
    set, and [h] is the command's own handler or else the default. *)
Theorem X3_Run_call_sound argv σ evs h name args opts :
  trace (Run fmtOption fmtCommand rangeOrder argv σ).2 = trace σ ++ evs →
  In (Call h name args opts) evs →
  ∃ p cmd,
    tokenize argv = Some p ∧
    name = cmdName p ∧ args = cmdArgs p ∧ opts = options p ∧
    evs = [Call h name args opts] ∧
    ¬ helpAsked p ∧
    find (registry σ) name = Some cmd ∧
    accepted (Args cmd) (llen args) ∧
    (∀ k v, opts !! k = Some v →
            legal (AppOptions (registry σ) ++ Options cmd) k v) ∧
    (Exec cmd = Some h ∨ (Exec cmd = None ∧ DefaultExec (registry σ) = Some h)).
Proof.
  intros Ht Hin.
  destruct (Run_cases argv σ)
    as [[_ Hr]|[(p & out & _ & _ & Hr)|[(p & d & _ & _ & Hr)|
        (p & cmd & h' & Hp & Hh & Hf & Ha & Hc & He & Hr)]]];
    rewrite Hr in Ht; simpl in Ht.
  - rewrite <- (app_nil_r (trace σ)) in Ht at 1.
    apply app_inv_head in Ht as <-. done.
  - apply app_inv_head in Ht as <-.
    apply list_elem_of_In, list_elem_of_fmap in Hin as (s & [=] & _).
  - apply app_inv_head in Ht as <-. by destruct Hin as [[=]|[]].
  - apply app_inv_head in Ht as <-. destruct Hin as [[= <- <- <- <-]|[]].
    exists p, cmd. split_and!; try done.
    + by apply arityMismatch_accepted.
    + intros k v Hkv. apply (proj1 (checkOptions_None _ _) Hc).
      apply list_elem_of_In. rewrite rangeOrder_perm.
      by apply elem_of_map_to_list.
    + unfold resolveExec in He. destruct (Exec cmd); [left; congruence|by right].
Qed.

Lemma filter_isCall_Stdout (out : list string) :
  List.filter isCall (Stdout (ExecFunc:=ExecFunc) <$> out) = [].
Proof. induction out as [|s out IH]; [done|]. by rewrite fmap_cons. Qed.

(** X4. Whatever the argument vector, [Run] leaves the application as
    it was and invokes at most one handler. *)
Theorem X4_Run_frame argv σ :
  ∃ evs,
    (Run fmtOption fmtCommand rangeOrder argv σ).2
      = mkState (registry σ) (trace σ ++ evs) ∧
    (length (List.filter isCall evs) ≤ 1)%nat.
Proof.
  destruct (Run_cases argv σ)
    as [[_ Hr]|[(p & out & _ & _ & Hr)|[(p & d & _ & _ & Hr)|
        (p & cmd & h' & _ & _ & _ & _ & _ & _ & Hr)]]];
    rewrite Hr; simpl.
  - exists []. rewrite app_nil_r. split; [by destruct σ|simpl; lia].
  - exists (Stdout <$> out). split; [done|].
    rewrite filter_isCall_Stdout. simpl. lia.
  - exists [Fail d]. split; [done|]. simpl. lia.
  - eexists [Call _ _ _ _]. split; [done|]. simpl. lia.
Qed.
End RunEverywhere.

(** ** The order of the map and the outcome of the option check *)

Section TwoOrders.
Context {ExecFunc : Type}.
Variable fmtOption : Z → string → string.
Variable fmtCommand : Z → string → string → string.
Variables order1 order2 : gmap string string → list (string * string).
Hypothesis order1_perm : ∀ m, order1 m ≡ₚ map_to_list m.
Hypothesis order2_perm : ∀ m, order2 m ≡ₚ map_to_list m.

(** X5. The order in which the map of the options is visited decides
    at most which diagnostic of the option check is printed: under two
    orders the run is the same, or both runs end with the diagnostic of
    a supplied option that is not legal and invoke no handler. *)
Theorem X5_Run_order_independent argv (σ : State ExecFunc) :
  Run fmtOption fmtCommand order1 argv σ
    = Run fmtOption fmtCommand order2 argv σ ∨
  ∃ p cmd k1 v1 d1 k2 v2 d2,
    tokenize argv = Some p ∧ find (registry σ) (cmdName p) = Some cmd ∧
    options p !! k1 = Some v1 ∧
    violation (AppOptions (registry σ) ++ Options cmd) k1 v1 d1 ∧
    options p !! k2 = Some v2 ∧
    violation (AppOptions (registry σ) ++ Options cmd) k2 v2 d2 ∧
    Run fmtOption fmtCommand order1 argv σ = (Some [], recorded (Fail d1) σ) ∧
    Run fmtOption fmtCommand order2 argv σ = (Some [], recorded (Fail d2) σ).
Proof.
  destruct (tokenize argv) as [p|] eqn:Hp.
  2:{ left. by rewrite !Run_panic. }
  destruct (wantsHelp p) eqn:Hh.
  { apply wantsHelp_asked in Hh. left. by rewrite !(Run_help _ _ _ _ _ _ Hp Hh). }
  apply wantsHelp_not_asked in Hh.
  destruct (find (registry σ) (cmdName p)) as [cmd|] eqn:Hf.
  2:{ left. by rewrite !(Run_unrecognized _ _ _ _ _ _ Hp Hh Hf). }
  destruct (arityMismatch cmd (cmdArgs p)) eqn:Ha.
  { destruct (formatCmdArgs_Some (Args cmd)) as [needs Hneeds].
    left. by rewrite !(Run_arity _ _ _ _ _ _ _ _ Hp Hh Hf Ha Hneeds). }
  rewrite !(Run_checked _ _ _ _ _ _ _ Hp Hh Hf Ha).
  set (all := AppOptions (registry σ) ++ Options cmd).
  assert (∀ order, (∀ m, order m ≡ₚ map_to_list m) →
          ∀ k v, In (k, v) (order (options p)) ↔ options p !! k = Some v)
    as Hlook.
  { intros order Hperm k v.
    rewrite <- list_elem_of_In, Hperm. apply elem_of_map_to_list. }
  destruct (checkOptions all (order1 (options p))) as [d1|] eqn:H1.
  - right.
    assert (∀ order d, (∀ m, order m ≡ₚ map_to_list m) →
             checkOptions all (order (options p)) = Some d →
             ∃ k v, options p !! k = Some v ∧ violation all k v d) as Hviol.
    { intros order d Hperm Hc.
      assert (¬ ∀ k v, In (k, v) (order (options p)) → legal all k v) as Hnot.
      { intros Hall%checkOptions_None. congruence. }
      clear -Hc Hperm Hlook.
      assert (∀ k v, In (k, v) (order (options p)) → options p !! k = Some v)
        as Hin by (intros ??; by apply Hlook).
      induction (order (options p)) as [|[k v] l IH]; [done|].
      destruct (legal_or_violation all k v) as [Hl|[d' Hd']].
      + rewrite checkOptions_legal in Hc by done.
        apply IH; [done|]. intros ???. apply Hin. by right.
      + rewrite (checkOptions_violation _ _ _ _ _ Hd') in Hc.
        injection Hc as <-. exists k, v. split; [|done]. apply Hin. by left. }
    destruct (Hviol order1 d1 order1_perm H1) as (k1 & v1 & Hk1 & Hd1).
    destruct (checkOptions all (order2 (options p))) as [d2|] eqn:H2.
    + destruct (Hviol order2 d2 order2_perm H2) as (k2 & v2 & Hk2 & Hd2).
      by exists p, cmd, k1, v1, d1, k2, v2, d2.
    + exfalso. eapply legal_not_violation; [|exact Hd1].
      apply (proj1 (checkOptions_None _ _) H2). by apply Hlook.
  - left. rewrite (proj2 (checkOptions_None all (order2 (options p)))); [done|].
    intros k v Hin%Hlook; [|done].
    apply (proj1 (checkOptions_None _ _) H1). by apply Hlook.
Qed.
End TwoOrders.

(** ** Registration and lookup *)

Lemma find_first_app {A} (f : A → bool) (l1 l2 : list A) :
  List.find f (l1 ++ l2) =
  match List.find f l1 with
  | Some x => Some x
  | None => List.find f l2
  end.
Proof.
  induction l1 as [|a l1 IH]; [done|]. simpl. by destruct (f a).
Qed.

Lemma findOption_app globals locals key :
  findOption (globals ++ locals) key =
  match findOption globals key with
  | Some o => Some o
  | None => findOption locals key
  end.
Proof. apply find_first_app. Qed.

Lemma findOption_snoc all o key :
  findOption (all ++ [o]) key =
  match findOption all key with
  | Some o' => Some o'
  | None => if bool_decide (Key o = key) then Some o else None
  end.
Proof. rewrite findOption_app. done. Qed.

Section RegistryProperties.
Context {ExecFunc : Type}.
Implicit Types (app : App ExecFunc) (c : Command ExecFunc).

(** X6. After [AddCommand] every name that was registered still finds
    the command it found before; the new name finds the new command,
    which has no options and no handler of its own, only when no
    earlier command has that name: a second command of the same name
    is accepted and can never be found.  The pointer handed back is the
    position of the new command. *)
Theorem X6_AddCommand_find app name description args :
  let new := mkCommand name description args [] None in
  (∀ m, find (AddCommand app name description args).1 m =
        match find app m with
        | Some c => Some c
        | None => if bool_decide (name = m) then Some new else None
        end) ∧
  Commands (AddCommand app name description args).1
    !! (AddCommand app name description args).2 = Some new.
Proof.
  intros new. split.
  - intros m. unfold find, AddCommand. cbn [fst Commands].
    by rewrite find_first_app.
  - unfold AddCommand. cbn [fst snd Commands].
    by rewrite lookup_app_r, Nat.sub_diag.
Qed.

(** X7. Registering an option, boolean or with a value, at a command or
    at the application, keeps what every key found before; the new key
    finds the new entry only when no earlier entry has that key.  A
    boolean option is an entry with the empty value. *)
Theorem X7_AddOption_findOption app c name value description key :
  let added o :=
    match o with
    | Some o' => Some o'
    | None => if bool_decide (name = key)
              then Some (mkOption name value description) else None
    end in
  let addedBool o :=
    match o with
    | Some o' => Some o'
    | None => if bool_decide (name = key)
              then Some (mkOption name "" description) else None
    end in
  findOption (Options (Command_AddValueOption c name value description)) key
    = added (findOption (Options c) key) ∧
  findOption (Options (Command_AddBoolOption c name description)) key
    = addedBool (findOption (Options c) key) ∧
  findOption (AppOptions (App_AddValueOption app name value description)) key
    = added (findOption (AppOptions app) key) ∧
  findOption (AppOptions (App_AddBoolOption app name description)) key
    = addedBool (findOption (AppOptions app) key).
Proof.
  intros added addedBool. unfold added, addedBool.
  split_and!; cbn [Options AppOptions Command_AddValueOption
    Command_AddBoolOption App_AddValueOption App_AddBoolOption];
    by rewrite findOption_snoc.
Qed.

(** X8. In the effective option set of [Run], the global options
    followed by the options of the command, a global option hides an
    option of the command with the same key: the key finds the global
    entry when there is one, and the entry of the command otherwise. *)
Theorem X8_global_option_first app c key :
  findOption (AppOptions app ++ Options c) key =
  match findOption (AppOptions app) key with
  | Some o => Some o
  | None => findOption (Options c) key
  end.
Proof. apply findOption_app. Qed.

(** X9. An option added through the pointer that [AddCommand] handed
    back is an option of the command the application finds under the
    new name, when no earlier command has that name. *)
Theorem X9_option_through_pointer app name description args key value text :
  find app name = None →
  let registered := AddCommand app name description args in
  find (through registered.1 registered.2
          (λ c, Command_AddValueOption c key value text)) name
    = Some (mkCommand name description args [mkOption key value text] None) ∧
  find (through registered.1 registered.2
          (λ c, Command_AddBoolOption c key text)) name
    = Some (mkCommand name description args [mkOption key "" text] None).
Proof.
  intros Hfresh registered. unfold registered, find, through, AddCommand in *.
  cbn [fst snd Commands] in *.
  assert (∀ f : Command ExecFunc → Command ExecFunc,
    alter f (length (Commands app))
          (Commands app ++ [mkCommand name description args [] None])
    = Commands app ++ [f (mkCommand name description args [] None)]) as Halter.
  { intros f. rewrite alter_app_r_alt by lia. by rewrite Nat.sub_diag. }
  rewrite !Halter, !find_first_app, !Hfresh. simpl.
  by rewrite !bool_decide_true.
Qed.
End RegistryProperties.

Lemma isVarArgs_snoc init a : isVarArgs (init ++ [a]) = String.prefix "..." a.
Proof.
  unfold isVarArgs, strings_Index. rewrite last_snoc.
  destruct (String.prefix "..." a) eqn:Hp.
  - by rewrite (proj2 (index_from_0_iff _ _) Hp).
  - apply bool_decide_eq_false. intros Hi.
    assert (index_from a "..." = Some 0%nat) as H0.
    { destruct (index_from a "...") as [[|n]|]; try done; lia. }
    apply index_from_0_iff in H0. congruence.
Qed.

(** X10. [isVarArgs] looks at the last declared name alone: the list is
    variadic exactly when that name starts with three dots, whatever
    the names before it; the empty list is not variadic. *)
Theorem X10_isVarArgs_last init a :
  isVarArgs (init ++ [a]) = String.prefix "..." a ∧ isVarArgs [] = false.
Proof. split; [apply isVarArgs_snoc|done]. Qed.

(** X11. For a variadic list [formatCmdArgs] does not panic and gives
    the names before the last joined by spaces, a space, and the name
    behind the three dots three times, numbered 1, 2 and [3...]; with
    the variadic name alone the text begins with that space. *)
Theorem X11_formatCmdArgs_variadic init x :
  formatCmdArgs (init ++ ["..." +:+ x]) =
  Some (strings_Join init " " +:+ " " +:+ x +:+ "1 " +:+ x +:+ "2 " +:+
        x +:+ "3...").
Proof.
  unfold formatCmdArgs.
  rewrite isVarArgs_snoc.
  rewrite (proj2 (prefix_app "..." _) (ex_intro _ x eq_refl)).
  rewrite last_snoc. cbn [mbind option_bind].
  unfold slice_from, len.
  rewrite (slice_nat _ _ _ 3 (String.length ("..." +:+ x)))
    by (str_simpl; lia).
  cbn [mbind option_bind]. rewrite length_app, Nat.add_sub, take_app_length.
  str_simpl. rewrite Nat.sub_0_r. by rewrite substring_all.
Qed.

(** ** The two parts of a description *)

Lemma strings_Split_head s c w ws :
  strings_Split s c = w :: ws → ¬ In c (bytes w).
Proof.
  revert w ws. induction s as [|a s IH]; intros w ws.
  - intros [= <- <-]. by intros [].
  - simpl. destruct (Ascii.eqb_spec a c) as [->|Hne].
    + intros [= <- <-]. by intros [].
    + destruct (strings_Split_cons s c) as (w' & ws' & Hs). rewrite Hs.
      intros [= <- <-]. simpl. intros [?|Hin]; [done|]. by eapply IH.
Qed.

(** X12. The short description and the extra description always exist
    and are the two parts of the description around its first newline:
    the short description holds no newline; a description without a
    newline is its own short description and has the empty extra
    description; any other description is the short description, a
    newline, and the extra description. *)
Theorem X12_description_parts {ExecFunc} (c : Command ExecFunc) :
  ∃ short extra,
    ShortDescription c = Some short ∧ ExtraDescription c = Some extra ∧
    ¬ In "010"%char (bytes short) ∧
    ((¬ In "010"%char (bytes (CmdDescription c)) ∧
      short = CmdDescription c ∧ extra = "") ∨
     CmdDescription c = short +:+ newline +:+ extra).
Proof.
  unfold ShortDescription, ExtraDescription.
  pose proof (strings_Join_Split (CmdDescription c) "010") as Hjoin.
  destruct (strings_Split_cons (CmdDescription c) "010") as (w & ws & Hs).
  pose proof (strings_Split_head _ _ _ _ Hs) as Hw.
  rewrite Hs in *. exists w, (strings_Join ws newline).
  split_and!; [done..|].
  destruct ws as [|x ws].
  - left. simpl in Hjoin. by rewrite <- Hjoin.
  - right. by rewrite <- Hjoin.
Qed.

(** ** Word wrap, further *)

Lemma wrapLoop_nonempty n i ws line lines l ls :
  wrapLoop n i ws line lines = (l, ls) →
  Forall (λ x, x ≠ "") lines → Forall (λ x, x ≠ "") ls.
Proof.
  revert i line lines. induction ws as [|w ws IH]; intros i line lines.
  - by intros [= <- <-].
  - cbn [wrapLoop]. case_bool_decide as Hlong.
    + intros Hloop Hall. eapply IH; [done|].
      apply Forall_app. split; [done|]. apply Forall_singleton.
      intros Hempty. rewrite Hempty in Hlong. by vm_compute in Hlong.
    + case_bool_decide; intros Hloop Hall; by eapply IH.
Qed.

(** A text that fits the width stays on the line under construction. *)
Lemma wrapLoop_fits n ws :
  ∀ i cur lines,
    ws ≠ [] → i = n - llen ws →
    len (spaced cur +:+ lineOf ws) ≤ width →
    wrapLoop n i ws (spaced cur) lines = (spaced cur +:+ lineOf ws, lines).
Proof.
  induction ws as [|w ws IH]; [done|]. intros i cur lines _ Hi Hfit.
  cbn [wrapLoop]. unfold llen in Hi. cbn [length] in Hi.
  destruct ws as [|w2 ws].
  - unfold lineOf in *. cbn [strings_Join] in *.
    rewrite bool_decide_false by lia.
    rewrite bool_decide_false; [done|]. cbn [length] in Hi. lia.
  - assert (lineOf (w :: w2 :: ws) = w +:+ " " +:+ lineOf (w2 :: ws)) as Hj
      by done.
    rewrite Hj in *. rewrite !len_app in Hfit.
    pose proof (len_nonneg (lineOf (w2 :: ws))).
    change (len " ") with 1 in Hfit.
    rewrite bool_decide_false by (rewrite len_app; lia).
    rewrite bool_decide_true by (cbn [length] in Hi; lia).
    replace ((spaced cur +:+ w) +:+ " ") with (spaced (cur ++ [w]))
      by (by rewrite spaced_snoc, app_assoc_str).
    rewrite IH; [|done|unfold llen; cbn [length] in *; lia|].
    + by rewrite spaced_snoc, !app_assoc_str.
    + rewrite spaced_snoc, !len_app. change (len " ") with 1. lia.
Qed.

Lemma formatTextIntoLines_groups text a b :
  ∃ groups rest,
    strings_Split text " " = concat groups ++ rest ∧
    (rest = [] ∨ rest = [""]) ∧
    formatTextIntoLines text a b = lineOf <$> groups ∧
    (∀ g, In g groups → g ≠ []).
Proof.
  unfold formatTextIntoLines.
  destruct (wrapLoop _ _ _ _ _) as [line ls] eqn:Hloop.
  destruct (wrapLoop_groups (llen (strings_Split text " "))
              (strings_Split text " ") 0 [] [] line ls)
    as (groups & rest & H1 & H2 & H3 & H4 & _);
    [|lia|done|done|by exists groups, rest].
  by destruct (strings_Split_cons text " ") as (w & ws & ->).
Qed.

Lemma strings_Join_app l1 l2 sep :
  l1 ≠ [] → l2 ≠ [] →
  strings_Join (l1 ++ l2) sep
    = strings_Join l1 sep +:+ sep +:+ strings_Join l2 sep.
Proof.
  intros H1 H2. induction l1 as [|x l1 IH]; [done|].
  destruct l1 as [|y l1].
  - destruct l2; [done|]. done.
  - rewrite <- app_comm_cons.
    change (strings_Join (x :: (y :: l1) ++ l2) sep)
      with (x +:+ sep +:+ strings_Join ((y :: l1) ++ l2) sep).
    rewrite IH by done.
    change (strings_Join (x :: y :: l1) sep)
      with (x +:+ sep +:+ strings_Join (y :: l1) sep).
    by rewrite !app_assoc_str.
Qed.

Lemma strings_Join_concat (groups : list (list string)) sep :
  (∀ g, In g groups → g ≠ []) →
  strings_Join (concat groups) sep
    = strings_Join ((λ g, strings_Join g sep) <$> groups) sep.
Proof.
  induction groups as [|g groups IH]; [done|]. intros Hne.
  destruct groups as [|g2 groups].
  - simpl. by rewrite app_nil_r.
  - rewrite concat_cons, strings_Join_app.
    + rewrite IH by (intros ??; apply Hne; by right). done.
    + apply Hne. by left.
    + rewrite concat_cons. intros [Hg _]%app_eq_nil.
      eapply Hne; [|done]. right. by left.
Qed.

(** X13. The wrapped lines are the text: joined again by single spaces
    they give the text back, or the text without one last space (left
    out behind a line that was flushed).  Nothing else is dropped. *)
Theorem X13_formatTextIntoLines_join text firstLineIndent otherLinesIndent :
  let lines := formatTextIntoLines text firstLineIndent otherLinesIndent in
  text = strings_Join lines " " ∨ text = strings_Join lines " " +:+ " ".
Proof.
  intros lines. unfold lines.
  destruct (formatTextIntoLines_groups text firstLineIndent otherLinesIndent)
    as (groups & rest & Hsplit & Hrest & -> & Hne).
  pose proof (strings_Join_Split text " ") as Hjoin. rewrite Hsplit in Hjoin.
  fold (lineOf <$> groups). unfold lineOf at 1 2.
  rewrite <- (strings_Join_concat groups " " Hne).
  destruct Hrest as [->| ->].
  - left. by rewrite app_nil_r in Hjoin.
  - destruct (concat groups) as [|x l] eqn:Hc.
    + left. by rewrite <- Hjoin.
    + right. rewrite strings_Join_app in Hjoin by done. by rewrite <- Hjoin.
Qed.

(** X14. No wrapped line is empty, and there is no line at all exactly
    when the text is empty. *)
Theorem X14_formatTextIntoLines_nonempty text firstLineIndent otherLinesIndent :
  (∀ line, In line (formatTextIntoLines text firstLineIndent otherLinesIndent)
           → line ≠ "") ∧
  (formatTextIntoLines text firstLineIndent otherLinesIndent = [] ↔ text = "").
Proof.
  split.
  - unfold formatTextIntoLines.
    destruct (wrapLoop _ _ _ _ _) as [l ls] eqn:Hloop.
    pose proof (wrapLoop_nonempty _ _ _ _ _ _ _ Hloop (Forall_nil_2 _)) as Hls.
    rewrite Forall_forall in Hls.
    case_bool_decide as Hl.
    + intros line [Hin| [<-|[]]]%in_app_or.
      * by apply Hls, list_elem_of_In.
      * intros ->. by apply Hl.
    + intros line Hin. by apply Hls, list_elem_of_In.
  - split; [|by intros ->].
    destruct (formatTextIntoLines_groups text firstLineIndent otherLinesIndent)
      as (groups & rest & Hsplit & Hrest & -> & Hne).
    intros Hnil%fmap_nil_inv. subst groups.
    pose proof (strings_Join_Split text " ") as Hjoin.
    rewrite Hsplit in Hjoin. by destruct Hrest as [->| ->].
Qed.

(** X15. A text that is not empty and not longer than 55 bytes is its
    own single line, spaces at its ends and runs of spaces included. *)
Theorem X15_formatTextIntoLines_short text firstLineIndent otherLinesIndent :
  text ≠ "" → len text ≤ width →
  formatTextIntoLines text firstLineIndent otherLinesIndent = [text].
Proof.
  intros Hne Hfit. unfold formatTextIntoLines.
  pose proof (strings_Join_Split text " ") as Hjoin.
  rewrite (wrapLoop_fits _ _ 0 [] []); [| |lia|].
  - unfold spaced. simpl foldr. rewrite app_nil_str. unfold lineOf.
    rewrite Hjoin. rewrite bool_decide_true; [done|].
    by intros ?%len_empty.
  - by destruct (strings_Split_cons text " ") as (w & ws & ->).
  - unfold spaced. simpl foldr. rewrite app_nil_str. unfold lineOf.
    by rewrite Hjoin.
Qed.

(** ** What the help prints *)

Lemma strings_Repeat_spaces count :
  0 ≤ count → strings_Repeat " " count = Some (spaces count).
Proof. intros H. unfold strings_Repeat. by rewrite bool_decide_false by lia. Qed.

Lemma findLongestOptionLoop_max max options :
  (∀ opt, In opt options →
          len (displayKey opt) ≤ findLongestOptionLoop max options) ∧
  (findLongestOptionLoop max options = max ∨
   ∃ opt, In opt options ∧
          len (displayKey opt) = findLongestOptionLoop max options).
Proof.
  revert max. induction options as [|o l IH]; intros max.
  - split; [by intros ? []|by left].
  - cbn [findLongestOptionLoop].
    assert ((if bool_decide (Value o ≠ "")
             then len (Key o) + 1 + len (Value o) else len (Key o))
            = len (displayKey o)) as ->.
    { unfold displayKey. case_bool_decide; [|done]. rewrite !len_app.
      change (len "=") with 1. lia. }
    destruct (IH (if bool_decide (len (displayKey o) > max)
                  then len (displayKey o) else max)) as [Hle Hat].
    pose proof (findLongestOptionLoop_ge
                  (if bool_decide (len (displayKey o) > max)
                   then len (displayKey o) else max) l) as Hge.
    split.
    + intros opt [<-|Hin]; [|by apply Hle]. case_bool_decide; lia.
    + destruct Hat as [Heq|(opt & Hin & Heq)].
      * case_bool_decide; [|by left]. right. exists o. split; [by left|done].
      * right. exists opt. split; [by right|done].
Qed.

(** X16. [findLongestOption] is the greatest length, in bytes, of the
    keys as the help shows them ([key] or [key=value]): no shown key is
    longer, and the value is the length of one of them, or 0. *)
Theorem X16_findLongestOption_max options :
  (∀ opt, In opt options → len (displayKey opt) ≤ findLongestOption options) ∧
  (findLongestOption options = 0 ∨
   ∃ opt, In opt options ∧ len (displayKey opt) = findLongestOption options).
Proof. apply findLongestOptionLoop_max. Qed.

Lemma longestCmdLoop_max {ExecFunc} max (cs : list (Command ExecFunc)) :
  max ≤ longestCmdLoop max cs ∧
  (∀ c, In c cs → len (Name c) ≤ longestCmdLoop max cs) ∧
  (longestCmdLoop max cs = max ∨
   ∃ c, In c cs ∧ len (Name c) = longestCmdLoop max cs).
Proof.
  revert max. induction cs as [|c l IH]; intros max.
  - split_and!; [done|by intros ? []|by left].
  - cbn [longestCmdLoop].
    set (m := if bool_decide (len (Name c) > max) then len (Name c) else max).
    destruct (IH m) as (Hge & Hle & Hat).
    assert (max ≤ m ∧ len (Name c) ≤ m) as [??]
      by (unfold m; case_bool_decide; lia).
    split_and!; [lia| |].
    + intros c' [<-|Hin]; [lia|by apply Hle].
    + destruct Hat as [Heq|(c' & Hin & Heq)].
      * unfold m in Heq. case_bool_decide; [|by left].
        right. exists c. split; [by left|done].
      * right. exists c'. split; [by right|done].
Qed.

(** X17. The width of the command column of the application help is
    the greatest length, in bytes, of the command names: no name is
    longer, and the width is the length of one of them, or 0. *)
Theorem X17_longestCmd_max {ExecFunc} (cs : list (Command ExecFunc)) :
  (∀ c, In c cs → len (Name c) ≤ longestCmdLoop 0 cs) ∧
  (longestCmdLoop 0 cs = 0 ∨
   ∃ c, In c cs ∧ len (Name c) = longestCmdLoop 0 cs).
Proof. apply longestCmdLoop_max. Qed.

Section HelpOutput.
Context {ExecFunc : Type}.
Variable fmtOption : Z → string → string.
Variable fmtCommand : Z → string → string → string.
Implicit Types (app : App ExecFunc).

Lemma prints_bind_nil {A B} app (m : M ExecFunc A) (k : A → M ExecFunc B)
    a b o :
  prints m app a [] → prints (k a) app b o → prints (bind m k) app b o.
Proof. intros Hm Hk. by apply (prints_bind app m k a b [] o). Qed.

Lemma prints_bind_cons {A B} app (m : M ExecFunc A) (k : A → M ExecFunc B)
    a b s o :
  prints m app a [s] → prints (k a) app b o →
  prints (bind m k) app b (s :: o).
Proof. intros Hm Hk. by apply (prints_bind app m k a b [s] o). Qed.

Lemma prints_forRange_concat {A} app (l : list A)
    (body : A → M ExecFunc unit) (f : A → list string) :
  (∀ x, prints (body x) app tt (f x)) →
  prints (forRange l body) app tt (concat (f <$> l)).
Proof.
  intros Hb. induction l as [|x l IH]; cbn [forRange].
  - apply prints_ret.
  - rewrite fmap_cons, concat_cons. eapply prints_bind; [apply Hb|apply IH].
Qed.

Lemma prints_forRange_concat_singleton {A} app (l : list A)
    (body : A → M ExecFunc unit) (f : A → string) :
  (∀ x, prints (body x) app tt [f x]) →
  prints (forRange l body) app tt (f <$> l).
Proof.
  intros Hb. induction l as [|x l IH]; cbn [forRange].
  - apply prints_ret.
  - rewrite fmap_cons.
    eapply prints_bind_cons; [apply Hb|apply IH].
Qed.

Lemma writeBody_tail app first other i (rest : list string) :
  0 ≤ other → 0 < i →
  prints (forRangeFrom (ExecFunc:=ExecFunc) i rest (λ j line,
            indent ⇐ orPanic (strings_Repeat " "
                       (if bool_decide (j = 0) then first else other)) ;
            Printf (indent +:+ line +:+ newline)))
         app tt ((λ x, spaces other +:+ x +:+ newline) <$> rest).
Proof.
  intros Ho. revert i. induction rest as [|x rest IH]; intros i Hi.
  - apply prints_ret.
  - cbn [forRangeFrom]. rewrite fmap_cons.
    eapply prints_bind_cons; [|apply IH; lia].
    rewrite bool_decide_false by lia. rewrite strings_Repeat_spaces by done.
    eapply prints_bind_nil;
      [apply prints_orPanic|apply prints_Printf].
Qed.

Lemma writeBody_indented app text first other :
  0 ≤ first → 0 ≤ other →
  prints (writeBody (ExecFunc:=ExecFunc) text first other) app tt
         (indentedLines first other (formatTextIntoLines text first other)).
Proof.
  intros Hf Ho. unfold writeBody.
  destruct (formatTextIntoLines text first other) as [|l rest].
  - apply prints_ret.
  - cbn [forRangeFrom indentedLines].
    eapply prints_bind_cons; [|by apply writeBody_tail].
    rewrite bool_decide_true by done. rewrite strings_Repeat_spaces by done.
    eapply prints_bind_nil;
      [apply prints_orPanic|apply prints_Printf].
Qed.

Lemma showOptions_rows app options :
  prints (showOptions (ExecFunc:=ExecFunc) fmtOption options) app tt
         (optionRows fmtOption options).
Proof.
  unfold showOptions, optionRows.
  eapply prints_bind_cons; [apply prints_Printf|].
  apply prints_forRange_concat. intros opt.
  eapply prints_bind_cons.
  - unfold formatOption, displayKey. case_bool_decide; apply prints_Printf.
  - apply writeBody_indented; [lia|].
    pose proof (findLongestOptionLoop_ge 0 options).
    unfold findLongestOption. lia.
Qed.

(** X18. With indents that are not negative [writeBody] prints the
    wrapped lines of the text one by one, each closed by a newline: the
    first behind the first indent, every other line behind the other
    indent.  It prints nothing for the empty text. *)
Theorem X18_writeBody_lines app text firstLineIndent otherLinesIndent :
  0 ≤ firstLineIndent → 0 ≤ otherLinesIndent →
  prints (writeBody (ExecFunc:=ExecFunc) text firstLineIndent otherLinesIndent)
         app tt
         (indentedLines firstLineIndent otherLinesIndent
            (formatTextIntoLines text firstLineIndent otherLinesIndent)) ∧
  (text = "" →
   prints (writeBody (ExecFunc:=ExecFunc) text firstLineIndent otherLinesIndent)
          app tt []).
Proof.
  intros Hf Ho. split; [by apply writeBody_indented|].
  intros ->. apply prints_ret.
Qed.

Lemma ShowHelp_application_prints app cmdName :
  find app cmdName = None →
  prints (ShowHelp fmtOption fmtCommand cmdName) app tt
         (applicationHelp fmtOption fmtCommand app).
Proof.
  intros Hfind. unfold ShowHelp, applicationHelp.
  eapply prints_bind_nil; [apply prints_getApp|].
  rewrite Hfind.
  apply (prints_bind _ _ _ tt).
  { case_bool_decide as Hd.
    - rewrite bool_decide_false by done. apply prints_Printf.
    - rewrite bool_decide_true by done. apply prints_ret. }
  apply (prints_bind _ _ _ tt).
  { apply prints_forRange_concat_singleton. intros c.
    destruct (ShortDescription_Some c) as [short ->]. simpl.
    eapply prints_bind_nil;
      [apply prints_orPanic|apply prints_Printf]. }
  unfold llen. destruct (AppOptions app) as [|o l] eqn:Ho.
  - apply prints_ret.
  - rewrite bool_decide_true by (simpl; lia). apply showOptions_rows.
Qed.

(** X19. For a name that no command has, the empty name among them,
    [ShowHelp] prints the help of the application and nothing else:
    the description between empty lines when it is not empty, one row
    for every command in the order of registration, each with its
    short description behind its name padded to the longest name, and
    the block of the global options when there are any. *)
Theorem X19_ShowHelp_application app cmdName :
  find app cmdName = None →
  prints (ShowHelp fmtOption fmtCommand cmdName) app tt
         (applicationHelp fmtOption fmtCommand app).
Proof. apply ShowHelp_application_prints. Qed.

Lemma ShowHelp_command_prints app cmdName cmd :
  find app cmdName = Some cmd →
  ∃ needs short extra,
    formatCmdArgs (Args cmd) = Some needs ∧
    ShortDescription cmd = Some short ∧
    ExtraDescription cmd = Some extra ∧
    Name cmd = cmdName ∧
    prints (ShowHelp fmtOption fmtCommand cmdName) app tt
           (commandHelp fmtOption cmd needs short extra).
Proof.
  intros Hfind.
  destruct (formatCmdArgs_Some (Args cmd)) as [needs Hneeds].
  destruct (ShortDescription_Some cmd) as [short Hshort].
  destruct (ExtraDescription_Some cmd) as [extra Hextra].
  exists needs, short, extra. split_and!; [done..| |].
  { apply find_some in Hfind as [_ Hn]. by apply bool_decide_eq_true in Hn. }
  unfold ShowHelp, commandHelp.
  eapply prints_bind_nil; [apply prints_getApp|].
  rewrite Hfind, Hneeds, Hshort, Hextra.
  eapply prints_bind_nil; [apply prints_orPanic|].
  eapply prints_bind_cons; [apply prints_Printf|].
  eapply prints_bind_nil; [apply prints_orPanic|].
  apply (prints_bind _ _ _ tt); [by apply writeBody_indented|].
  eapply prints_bind_nil; [apply prints_orPanic|].
  apply (prints_bind _ _ _ tt).
  { case_bool_decide as He.
    - rewrite bool_decide_false by done. by apply writeBody_indented.
    - rewrite bool_decide_true by done. apply prints_ret. }
  unfold llen. destruct (Options cmd) as [|o l] eqn:Ho.
  - apply prints_ret.
  - rewrite bool_decide_true by (simpl; lia). apply showOptions_rows.
Qed.
(** X20. For the name of a registered command [ShowHelp] prints the
    help of the first command of that name and nothing else: its name
    and formatted arguments between empty lines, the wrapped short
    description with a full stop appended in every case, the wrapped
    extra description when it is not empty, both behind 2 spaces, and
    the block of the options of the command when there are any. *)
Theorem X20_ShowHelp_command app cmdName cmd :
  find app cmdName = Some cmd →
  ∃ needs short extra,
    formatCmdArgs (Args cmd) = Some needs ∧
    ShortDescription cmd = Some short ∧
    ExtraDescription cmd = Some extra ∧
    Name cmd = cmdName ∧
    prints (ShowHelp fmtOption fmtCommand cmdName) app tt
           (commandHelp fmtOption cmd needs short extra).
Proof. apply ShowHelp_command_prints. Qed.
End HelpOutput.

(** ** From registration to dispatch *)

Lemma tokenizeLoop_plain tokens p :
  (∀ a, In a tokens → a ≠ "" ∧ String.prefix "-" a = false) →
  cmdName p ≠ "" →
  tokenizeLoop 1 tokens p
    = Some (mkParsed (options p) (cmdName p) (cmdArgs p ++ tokens)).
Proof.
  revert p. induction tokens as [|t rest IH]; intros p Hall Hname.
  - rewrite app_nil_r. by destruct p.
  - rewrite tokenizeLoop_step.
    destruct (Hall t (or_introl eq_refl)) as [Hne Hdash].
    destruct (tokenStep_cases p t) as [[-> _]|[(k & v & Hs & _)|(_ & _ & H)]];
      [done| |].
    { destruct (supplies_dash _ _ _ Hs) as [r ->].
      by rewrite prefix_byte_eq in Hdash. }
    rewrite H, bool_decide_false by done. cbn [mbind option_bind].
    rewrite IH; [|intros ??; apply Hall; by right|done].
    simpl. by rewrite <- app_assoc.
Qed.

Section Registered.
Context {ExecFunc : Type}.
Variable fmtOption : Z → string → string.
Variable fmtCommand : Z → string → string → string.
Variable rangeOrder : gmap string string → list (string * string).
Hypothesis rangeOrder_perm : ∀ m, rangeOrder m ≡ₚ map_to_list m.

(** X21. A command registered by [AddCommand] under a new name, which
    is not empty, is not [help] and has no leading hyphen, is
    dispatched: called by that name with arguments that are not empty,
    have no leading hyphen and satisfy its arity rule, and with no
    option, [Run] invokes the default handler of the application once,
    with the name, these arguments in their order and the empty map. *)
Theorem X21_AddCommand_then_Run (app : App ExecFunc) name description args
    given h t prog :
  find app name = None →
  name ≠ "" → name ≠ "help" → String.prefix "-" name = false →
  (∀ a, In a given → a ≠ "" ∧ String.prefix "-" a = false) →
  accepted args (llen given) →
  DefaultExec app = Some h →
  let σ := mkState (AddCommand app name description args).1 t in
  Run fmtOption fmtCommand rangeOrder (prog :: name :: given) σ
    = (Some [], recorded (Call h name given ∅) σ).
Proof.
  intros Hfresh Hne Hnh Hdash Hgiven Hacc Hdef σ.
  set (new := mkCommand (ExecFunc:=ExecFunc) name description args [] None).
  assert (tokenize (prog :: name :: given) = Some (mkParsed ∅ name given))
    as Hp.
  { rewrite tokenize_tl. cbn [tl]. rewrite tokenizeLoop_step.
    destruct (tokenStep_cases (mkParsed ∅ "" []) name)
      as [[-> _]|[(k & v & Hs & _)|(_ & _ & H)]]; [done| |].
    { destruct (supplies_dash _ _ _ Hs) as [r ->].
      by rewrite prefix_byte_eq in Hdash. }
    rewrite H. cbn [mbind option_bind]. simpl.
    by rewrite tokenizeLoop_plain. }
  assert (find (registry σ) name = Some new) as Hfind.
  { unfold σ, find, AddCommand in *. cbn [registry fst Commands].
    rewrite find_first_app, Hfresh. simpl. by rewrite bool_decide_true. }
  rewrite (Run_checked _ _ _ _ _ _ new Hp); cbn [cmdName cmdArgs options].
  - replace (rangeOrder ∅) with (@nil (string * string)).
    + cbn [checkOptions]. unfold resolveExec. cbn [Exec new].
      unfold σ at 1. cbn [registry AddCommand fst DefaultExec].
      by rewrite Hdef.
    + symmetry. apply Permutation_nil_r. rewrite rangeOrder_perm.
      by rewrite map_to_list_empty.
  - intros [?|[?|[v Hv]]]; simpl in *; [done..|].
    by rewrite lookup_empty in Hv.
  - done.
  - by apply arityMismatch_accepted.
Qed.
End Registered.

(** ** The further properties on concrete inputs *)

Lemma reverseOrder_perm (m : gmap string string) :
  reverseOrder m ≡ₚ map_to_list m.
Proof. unfold reverseOrder. symmetry. apply Permutation_rev. Qed.

Lemma X1_witness :
  ∃ p, tokenize ["myapp"; "-a"; "cp"; "-b=1"; "x"; "y"] = Some p ∧
       cmdName p = "cp" ∧ cmdArgs p = ["x"; "y"].
Proof.
  destruct (X1_tokenize_positional ["myapp"; "-a"; "cp"; "-b=1"; "x"; "y"])
    as (p & Hp & Hname & Hargs).
  - simpl. intros [H|[H|[H|[H|[H|[]]]]]]; discriminate H.
  - exists p. split; [exact Hp|]. split; [exact Hname|exact Hargs].
Defined.

Lemma X2_witness :
  tokenize ["myapp"; "-a"; "cp"; "x"; "-b=1"]
  = tokenize ["myapp"; "cp"; "-a"; "-b=1"; "x"].
Proof.
  apply (X2_tokenize_interleaving ["myapp"; "-a"; "cp"; "x"; "-b=1"]
           ["myapp"; "cp"; "-a"; "-b=1"; "x"]).
  - vm_compute; reflexivity.
  - vm_compute; reflexivity.
Defined.

Lemma X3_witness :
  ∃ p cmd,
    tokenize ["myapp"; "start"; "/folder1/folder2"; "8669"] = Some p ∧
    "start" = cmdName p ∧ ["/folder1/folder2"; "8669"] = cmdArgs p ∧
    ¬ helpAsked p ∧ find exampleApp "start" = Some cmd ∧
    accepted (Args cmd) 2.
Proof.
  destruct (X3_Run_call_sound paddedOption paddedCommand map_to_list
              map_to_list_perm
              ["myapp"; "start"; "/folder1/folder2"; "8669"] exampleState
              [Call exec "start" ["/folder1/folder2"; "8669"] ∅]
              exec "start" ["/folder1/folder2"; "8669"] ∅)
    as (p & cmd & Hp & Hn & Ha & _ & _ & Hh & Hf & Hacc & _).
  - vm_compute; reflexivity.
  - left. reflexivity.
  - exists p, cmd. split; [exact Hp|]. split; [exact Hn|].
    split; [exact Ha|]. split; [exact Hh|]. split; [exact Hf|exact Hacc].
Defined.

Lemma X5_witness :
  let argv := ["myapp"; "start"; "a"; "b"; "-x"; "-y"] in
  Run paddedOption paddedCommand map_to_list argv exampleState
    = Run paddedOption paddedCommand reverseOrder argv exampleState ∨
  ∃ p cmd k1 v1 d1 k2 v2 d2,
    tokenize argv = Some p ∧ find (registry exampleState) (cmdName p) = Some cmd ∧
    options p !! k1 = Some v1 ∧
    violation (AppOptions (registry exampleState) ++ Options cmd) k1 v1 d1 ∧
    options p !! k2 = Some v2 ∧
    violation (AppOptions (registry exampleState) ++ Options cmd) k2 v2 d2 ∧
    Run paddedOption paddedCommand map_to_list argv exampleState
      = (Some [], recorded (Fail d1) exampleState) ∧
    Run paddedOption paddedCommand reverseOrder argv exampleState
      = (Some [], recorded (Fail d2) exampleState).
Proof.
  exact (X5_Run_order_independent paddedOption paddedCommand
           map_to_list reverseOrder map_to_list_perm reverseOrder_perm
           ["myapp"; "start"; "a"; "b"; "-x"; "-y"] exampleState).
Defined.

(** The diagnostic does depend on the order: with two options that are
    not registered, the one that is reported is the one visited first. *)
Lemma diagnostic_depends_on_order :
  let argv := ["myapp"; "start"; "a"; "b"; "-x"; "-y"] in
  Run paddedOption paddedCommand map_to_list argv exampleState
    = (Some [], recorded (Fail (UnrecognizedOption "y")) exampleState) ∧
  Run paddedOption paddedCommand reverseOrder argv exampleState
    = (Some [], recorded (Fail (UnrecognizedOption "x")) exampleState).
Proof. split; vm_compute; reflexivity. Qed.

Lemma X9_witness :
  find (through (AddCommand exampleApp "stop" "Stop the application" []).1
                (AddCommand exampleApp "stop" "Stop the application" []).2
                (λ c, Command_AddValueOption c "after" "seconds" "Delay"))
       "stop"
  = Some (mkCommand "stop" "Stop the application" []
            [mkOption "after" "seconds" "Delay"] None).
Proof.
  destruct (X9_option_through_pointer exampleApp "stop" "Stop the application"
              [] "after" "seconds" "Delay") as [Hvalue _].
  - vm_compute; reflexivity.
  - exact Hvalue.
Defined.

Lemma X15_witness :
  formatTextIntoLines "Clean all files" 3 9 = ["Clean all files"].
Proof.
  apply (X15_formatTextIntoLines_short "Clean all files" 3 9).
  - discriminate.
  - vm_compute. discriminate.
Defined.

Lemma X18_witness :
  prints (writeBody (ExecFunc:=Handler) "Clean all files" 3 9) exampleApp tt
         ["   Clean all files" +:+ newline].
Proof.
  destruct (X18_writeBody_lines (ExecFunc:=Handler) exampleApp
              "Clean all files" 3 9) as [Hlines _].
  - vm_compute. discriminate.
  - vm_compute. discriminate.
  - exact Hlines.
Defined.

Lemma X19_witness :
  prints (exampleShowHelp "") exampleApp tt
         (applicationHelp paddedOption paddedCommand exampleApp).
Proof.
  apply (X19_ShowHelp_application paddedOption paddedCommand exampleApp "").
  vm_compute; reflexivity.
Defined.

Lemma X20_witness :
  ∃ needs short extra,
    formatCmdArgs (Args initializeCmd) = Some needs ∧
    ShortDescription initializeCmd = Some short ∧
    ExtraDescription initializeCmd = Some extra ∧
    Name initializeCmd = "initialize" ∧
    prints (exampleShowHelp "initialize") exampleApp tt
           (commandHelp paddedOption initializeCmd needs short extra).
Proof.
  apply (X20_ShowHelp_command paddedOption paddedCommand exampleApp
           "initialize" initializeCmd).
  vm_compute; reflexivity.
Defined.

Lemma X21_witness :
  let σ := mkState (AddCommand exampleApp "stop" "Stop the application"
                      ["port"]).1 [] in
  exampleRun ["myapp"; "stop"; "8669"] σ
  = (Some [], recorded (Call exec "stop" ["8669"] ∅) σ).
Proof.
  apply (X21_AddCommand_then_Run paddedOption paddedCommand map_to_list
           map_to_list_perm exampleApp "stop" "Stop the application" ["port"]
           ["8669"] exec [] "myapp").
  - vm_compute; reflexivity.
  - discriminate.
  - discriminate.
  - vm_compute; reflexivity.
  - intros a [<-|[]]. split; [discriminate|vm_compute; reflexivity].
  - apply (arityMismatch_accepted
             (mkCommand (ExecFunc:=Handler) "stop" "" ["port"] [] None) ["8669"]).
    vm_compute; reflexivity.
  - reflexivity.
Defined.

(** The help of the example application, text by text. *)
Lemma exampleApp_help :
  applicationHelp paddedOption paddedCommand exampleApp =
  [newline +:+ "myapp [options] command" +:+ newline +:+ newline;
   "  start       Start the application" +:+ newline;
   "  initialize  Initialize a directory" +:+ newline;
   "  varargs     Demonstrate variable number of arguments" +:+ newline].
Proof. vm_compute; reflexivity. Qed.

(** ** What the help path prints *)

Section HelpPath.
Context {ExecFunc : Type}.
Variable fmtOption : Z → string → string.
Variable fmtCommand : Z → string → string → string.
Variable rangeOrder : gmap string string → list (string * string).

(** X22. When no token after the first is a command name, that is when
    all of them are option tokens or there is none, and no command is
    registered under the empty name, [Run] prints the help of the
    application and returns: no handler is invoked, whatever the
    options are. *)
Theorem X22_Run_without_command argv (σ : State ExecFunc) :
  positional (tl argv) = [] →
  find (registry σ) "" = None →
  Run fmtOption fmtCommand rangeOrder argv σ
    = (Some [],
       mkState (registry σ)
         (trace σ ++
          (Stdout <$> applicationHelp fmtOption fmtCommand (registry σ)))).
Proof.
  intros Hpos Hfind.
  assert (¬ In "" (tl argv)) as Hne.
  { intros Hin. assert (In "" (positional (tl argv))) as Hin'.
    { apply filter_In. by split. }
    by rewrite Hpos in Hin'. }
  destruct (tokenize argv) as [p|] eqn:Hp.
  2:{ by apply tokenize_panics in Hp. }
  pose proof Hp as Hp'. rewrite tokenize_tl in Hp'.
  apply tokenizeLoop_positional in Hp'; [|lia]. simpl in Hp'.
  rewrite Hpos in Hp'. destruct Hp' as [Hname Hargs].
  rewrite (Run_help _ _ _ _ _ p Hp) by by left.
  unfold helpTarget. rewrite Hargs, Hname. unfold bind.
  destruct σ as [app t]. simpl in *.
  by rewrite (ShowHelp_application_prints fmtOption fmtCommand app "" Hfind t).
Qed.

(** X23. On the help path, when the name handed to [ShowHelp] (the
    first positional argument if there is one, the command name
    otherwise) is the name of a registered command, [Run] prints the
    help of that command and returns without invoking a handler.  So
    [help cmd] and [cmd -help] print the help of [cmd], while
    [cmd arg -help] asks for the help of [arg]. *)
Theorem X23_Run_help_for_command argv (σ : State ExecFunc) p cmd :
  tokenize argv = Some p →
  helpAsked p →
  find (registry σ) (match cmdArgs p with a :: _ => a | [] => cmdName p end)
    = Some cmd →
  ∃ needs short extra,
    formatCmdArgs (Args cmd) = Some needs ∧
    ShortDescription cmd = Some short ∧
    ExtraDescription cmd = Some extra ∧
    Run fmtOption fmtCommand rangeOrder argv σ
      = (Some [],
         mkState (registry σ)
           (trace σ ++
            (Stdout <$> commandHelp fmtOption cmd needs short extra))).
Proof.
  intros Hp Hh Hfind. fold (helpTarget p) in Hfind.
  destruct (ShowHelp_command_prints fmtOption fmtCommand (registry σ) _ _ Hfind)
    as (needs & short & extra & Hn & Hs & He & _ & Hprints).
  exists needs, short, extra. split_and!; [done..|].
  rewrite (Run_help _ _ _ _ _ p Hp Hh). unfold bind.
  destruct σ as [app t]. simpl in *. by rewrite Hprints.
Qed.
End HelpPath.

Lemma X22_witness :
  exampleRun ["myapp"; "-v"] exampleState
  = (Some [],
     mkState exampleApp
       (Stdout <$> applicationHelp paddedOption paddedCommand exampleApp)).
Proof.
  apply (X22_Run_without_command paddedOption paddedCommand map_to_list
           ["myapp"; "-v"] exampleState).
  - vm_compute; reflexivity.
  - vm_compute; reflexivity.
Defined.

Lemma X23_witness :
  ∃ needs short extra,
    formatCmdArgs (Args initializeCmd) = Some needs ∧
    ShortDescription initializeCmd = Some short ∧
    ExtraDescription initializeCmd = Some extra ∧
    exampleRun ["myapp"; "initialize"; "-help"] exampleState
      = (Some [],
         mkState exampleApp
           (Stdout <$> commandHelp paddedOption initializeCmd needs short extra)).
Proof.
  apply (X23_Run_help_for_command paddedOption paddedCommand map_to_list
           ["myapp"; "initialize"; "-help"] exampleState
           (mkParsed {["help" := ""]} "initialize" []) initializeCmd).
  - vm_compute; reflexivity.
  - right. right. exists "". vm_compute; reflexivity.
  - vm_compute; reflexivity.
Defined.

(** ** The help path, with what it prints *)

Section HelpPathOutput.
Context {ExecFunc : Type}.
Variable fmtOption : Z → string → string.
Variable fmtCommand : Z → string → string → string.
Variable rangeOrder : gmap string string → list (string * string).

(** C3, as the code has it.  When the parsed command name is empty or
    is [help], or the parsed option map has the key [help], [Run]
    prints help for one name, the first positional argument if one was
    captured and the parsed command name otherwise, and returns: only
    these texts are added to the trace, no handler is invoked and the
    application is left as it was.  What is printed is the detailed
    help of the first registered command of that name when there is
    one, and the help of the application whenever no command has that
    name, be it a positional argument, the word [help] or the empty
    name. *)
Theorem C3_Run_help_output argv (σ : State ExecFunc) p :
  tokenize argv = Some p →
  helpAsked p →
  ∃ out : list string,
    Run fmtOption fmtCommand rangeOrder argv σ
      = (Some [], mkState (registry σ) (trace σ ++ (Stdout <$> out))) ∧
    match find (registry σ)
            (match cmdArgs p with a :: _ => a | [] => cmdName p end) with
    | Some cmd =>
        ∃ needs short extra,
          formatCmdArgs (Args cmd) = Some needs ∧
          ShortDescription cmd = Some short ∧
          ExtraDescription cmd = Some extra ∧
          out = commandHelp fmtOption cmd needs short extra
    | None => out = applicationHelp fmtOption fmtCommand (registry σ)
    end.
Proof.
  intros Hp Hh. rewrite (Run_help _ _ _ _ _ p Hp Hh). unfold bind.
  fold (helpTarget p).
  destruct (find (registry σ) (helpTarget p)) as [cmd|] eqn:Hfind.
  - destruct (ShowHelp_command_prints fmtOption fmtCommand (registry σ) _ _ Hfind)
      as (needs & short & extra & Hn & Hs & He & _ & Hprints).
    exists (commandHelp fmtOption cmd needs short extra).
    destruct σ as [app t]. simpl in *. rewrite Hprints.
    split; [done|]. by exists needs, short, extra.
  - exists (applicationHelp fmtOption fmtCommand (registry σ)).
    destruct σ as [app t]. simpl in *.
    by rewrite (ShowHelp_application_prints fmtOption fmtCommand app _ Hfind t).
Qed.
End HelpPathOutput.

Lemma C3_witness :
  ∃ out : list string,
    exampleRun ["myapp"; "help"; "initialize"] exampleState
      = (Some [], mkState exampleApp (Stdout <$> out)) ∧
    ∃ needs short extra,
      formatCmdArgs (Args initializeCmd) = Some needs ∧
      ShortDescription initializeCmd = Some short ∧
      ExtraDescription initializeCmd = Some extra ∧
      out = commandHelp paddedOption initializeCmd needs short extra.
Proof.
  exact (C3_Run_help_output paddedOption paddedCommand map_to_list
           ["myapp"; "help"; "initialize"] exampleState
           (mkParsed ∅ "help" ["initialize"])
           eq_refl (or_intror (or_introl eq_refl))).
Defined.

(** The claim of a detailed help for every captured positional argument
    fails: for [help nosuch] a positional argument is captured, and
    [Run] prints the help of the application, which is the detailed
    help of no command of that name. *)
Lemma C3_counterexample :
  exampleRun ["myapp"; "help"; "nosuch"] exampleState
    = (Some [],
       mkState exampleApp
         (Stdout <$> applicationHelp paddedOption paddedCommand exampleApp)) ∧
  ∀ (cmd : Command Handler) needs short extra,
    Name cmd = "nosuch" →
    applicationHelp paddedOption paddedCommand exampleApp
      ≠ commandHelp paddedOption cmd needs short extra.
Proof.
  split; [vm_compute; reflexivity|].
  intros cmd needs short extra Hname. rewrite exampleApp_help.
  unfold commandHelp. rewrite Hname. unfold newline. str_simpl.
  intros H. injection H as H _. discriminate H.
Qed.

(** The padding counts runes, not bytes: a name of five characters and
    six bytes is padded like a name of five bytes. *)
Lemma padRight_counts_runes :
  len "héllo" = 6 ∧ RuneCountInString "héllo" = 5 ∧
  padRight 7 "héllo" = "héllo  ".
Proof. split_and!; vm_compute; reflexivity. Qed.
